(** * FDLNet / RF-Det detector ([model/det.py]): a shallow embedding

    The Python module defines [channel_shuffle], the [InvertedResidual]
    block and the [RFDet] detector (forward pass, post-processing and
    loss).  Tensors are modelled by nested lists; Python exceptions by a
    small error monad. *)

From Stdlib Require Import List ZArith Lia Bool Arith PeanoNat Permutation.
From Stdlib Require Import Floats Uint63 Reals Lra.

Set Warnings "-inexact-float".
Import ListNotations.

(** ** Exceptions *)

Inductive exn : Type :=
| AssertionError
| ZeroDivisionError
| UnboundLocalError
| AttributeError
| RuntimeError
| ValueError.

Inductive result (A : Type) : Type :=
| Ok (a : A)
| Raise (e : exn).

Arguments Ok {A} a.
Arguments Raise {A} e.

Definition bind {A B : Type} (r : result A) (k : A -> result B) : result B :=
  match r with
  | Ok a => k a
  | Raise e => Raise e
  end.

Notation "x <- r ;; k" := (bind r (fun x => k))
  (at level 61, r at next level, right associativity).

Definition result_map {A B : Type} (h : A -> B) (r : result A) : result B :=
  match r with
  | Ok a => Ok (h a)
  | Raise e => Raise e
  end.

Fixpoint mapM {A B : Type} (f : A -> result B) (l : list A) : result (list B) :=
  match l with
  | [] => Ok []
  | a :: l' => b <- f a ;; bs <- mapM f l' ;; Ok (b :: bs)
  end.

(** ** [channel_shuffle]

    A (B, C, H, W) tensor is a list (batch) of samples, a sample being the
    list of its C channel planes.  The plane type [P] is left abstract:
    the shuffle only moves whole planes.  Planes are taken to have at
    least one row and one column: on a tensor whose planes have no
    element the last [view] raises [RuntimeError], as it does on the
    empty batch. *)

Section ChannelShuffle.
Context {P : Type}.

(** [x.view(batchsize, groups, channels_per_group, height, width)] on one
    sample: [groups] consecutive runs of [cpg] channels. *)
Fixpoint view_groups (groups cpg : nat) (l : list P) : list (list P) :=
  match groups with
  | O => []
  | S g => firstn cpg l :: view_groups g cpg (skipn cpg l)
  end.

Fixpoint zip_cons (r : list P) (m : list (list P)) : list (list P) :=
  match r, m with
  | a :: r', c :: m' => (a :: c) :: zip_cons r' m'
  | _, _ => []
  end.

(** [torch.transpose(x, 1, 2)] on rows of width [cols]. *)
Fixpoint transpose (cols : nat) (m : list (list P)) : list (list P) :=
  match m with
  | [] => repeat [] cols
  | r :: m' => zip_cons r (transpose cols m')
  end.

(** One sample of [channel_shuffle]: [//] raises on a zero divisor, the
    first [view] raises when [groups * channels_per_group] is not the
    channel count. *)
Definition channel_shuffle_sample (l : list P) (groups : nat) : result (list P) :=
  let num_channels := length l in
  if groups =? 0 then Raise ZeroDivisionError else
  let channels_per_group := num_channels / groups in
  if groups * channels_per_group =? num_channels
  then Ok (concat (transpose channels_per_group
                     (view_groups groups channels_per_group l)))
  else Raise RuntimeError.

(** [channel_shuffle].  On an empty batch the first [view] passes and the
    last one, [x.view(batchsize, -1, height, width)], raises: torch cannot
    infer [-1] for a tensor without elements. *)
Definition channel_shuffle (x : list (list P)) (groups : nat)
  : result (list (list P)) :=
  if groups =? 0 then Raise ZeroDivisionError else
  match x with
  | [] => Raise RuntimeError
  | _ :: _ => mapM (fun s => channel_shuffle_sample s groups) x
  end.

(** The channel order [channel_shuffle_sample] produces on [g * n]
    channels. *)
Definition interleave (g n : nat) (l : list P) : list P :=
  concat (transpose n (view_groups g n l)).

(** [rect g n m]: [m] has [g] rows, each of [n] entries. *)
Definition rect (g n : nat) (m : list (list P)) : Prop :=
  length m = g /\ Forall (fun r => length r = n) m.
End ChannelShuffle.


(** ** Element-wise helpers on nested lists *)

(** Element-wise combination of two equally long lists; a length mismatch
    is the shape error torch raises (the broadcasting of unit axes is not
    modelled). *)
Fixpoint zip_exact {A B C : Type} (f : A -> B -> result C)
    (a : list A) (b : list B) : result (list C) :=
  match a, b with
  | [], [] => Ok []
  | x :: a', y :: b' =>
      z <- f x y ;; zs <- zip_exact f a' b' ;; Ok (z :: zs)
  | _, _ => Raise RuntimeError
  end.

Definition zip3d {A B C : Type} (f : A -> B -> C)
    (a : list (list (list A))) (b : list (list (list B)))
  : result (list (list (list C))) :=
  zip_exact (zip_exact (zip_exact (fun x y => Ok (f x y)))) a b.

Definition zip4d {A B C : Type} (f : A -> B -> C)
    (a : list (list (list (list A)))) (b : list (list (list (list B))))
  : result (list (list (list (list C)))) :=
  zip_exact (zip_exact (zip_exact (zip_exact (fun x y => Ok (f x y))))) a b.

Definition mapi {A B : Type} (f : nat -> A -> B) (l : list A) : list B :=
  map (fun ia => f (fst ia) (snd ia)) (combine (seq 0 (length l)) l).

Definition map3 {A B : Type} (f : A -> B) : list (list (list A)) -> list (list (list B)) :=
  map (map (map f)).

Definition Forall3 {A : Type} (Q : A -> Prop) : list (list (list A)) -> Prop :=
  Forall (Forall (Forall Q)).

Definition Forall4 {A : Type} (Q : A -> Prop) : list (list (list (list A))) -> Prop :=
  Forall (Forall3 Q).

(** ** The torch interface

    [layer] describes the [torch.nn] modules the source instantiates; the
    payload [w] stands for the learned parameters the module owns. *)

Inductive layer (Wt : Type) : Type :=
| Conv2d (in_channels out_channels kernel_size stride padding dilation groups : Z)
         (bias : bool) (w : Wt)
| BatchNorm2d (num_features : Z) (w : Wt)
| InstanceNorm2d (num_features : Z) (affine : bool) (w : Wt)
| ReLU (inplace : bool).

Arguments Conv2d {Wt}.
Arguments BatchNorm2d {Wt}.
Arguments InstanceNorm2d {Wt}.
Arguments ReLU {Wt}.

(** The constructors of these modules check their arguments before the
    parameters are allocated.  [nn.Conv2d] raises [ValueError] unless
    [groups] is positive and divides both channel counts; [torch.empty]
    then raises [RuntimeError] on a negative dimension of the weight
    ([out_channels], [in_channels // groups], [kernel_size],
    [kernel_size]). *)
Definition new_Conv2d {Wt : Type}
    (in_channels out_channels kernel_size stride padding dilation groups : Z)
    (bias : bool) (w : Wt) : result (layer Wt) :=
  if (groups <=? 0)%Z then Raise ValueError else
  if negb (in_channels mod groups =? 0)%Z then Raise ValueError else
  if negb (out_channels mod groups =? 0)%Z then Raise ValueError else
  if ((out_channels <? 0) || (in_channels / groups <? 0) || (kernel_size <? 0))%Z
  then Raise RuntimeError else
  Ok (Conv2d in_channels out_channels kernel_size stride padding dilation groups
        bias w).

(** [nn.BatchNorm2d(num_features)] allocates [num_features] weights. *)
Definition new_BatchNorm2d {Wt : Type} (num_features : Z) (w : Wt)
  : result (layer Wt) :=
  if (num_features <? 0)%Z then Raise RuntimeError
  else Ok (BatchNorm2d num_features w).

(** [nn.InstanceNorm2d(num_features, affine)] allocates its weights only
    when [affine] is set. *)
Definition new_InstanceNorm2d {Wt : Type} (num_features : Z) (affine : bool)
    (w : Wt) : result (layer Wt) :=
  if (affine && (num_features <? 0)%Z)%bool then Raise RuntimeError
  else Ok (InstanceNorm2d num_features affine w).

(** The arguments of [nn.Sequential(...)] are evaluated left to right; the
    first constructor that raises ends the call. *)
Definition new_Sequential {Wt : Type} (ls : list (result (layer Wt)))
  : result (list (layer Wt)) :=
  mapM (fun l => l) ls.

(** A (B, C, H, W) tensor with abstract planes, a single-channel score map
    (B, H, W) and a channel-last volume (B, H, W, C) of real values. *)
Definition tensor (P : Type) : Type := list (list P).
Definition map1 : Type := list (list (list R)).
Definition volume : Type := list (list (list (list R))).

(** Operations of torch (and [utils.math_utils.L2Norm]) the detector calls
    and this file does not define.  Calls that check shapes may raise. *)
Class Torch (P Wt : Type) : Type := {
  (** calling a module on a (B, C, H, W) tensor *)
  apply_layer : layer Wt -> tensor P -> result (tensor P);
  (** calling a [Conv2d] with [out_channels = 1], read as its one channel *)
  conv_single : layer Wt -> tensor P -> result map1;
  (** calling [InstanceNorm2d(1)] on a single-channel map *)
  norm_single : layer Wt -> map1 -> result map1;
  (** [torch.nn.Upsample(scale_factor=s, mode='bilinear')] *)
  upsample_scale : R -> tensor P -> result (tensor P);
  (** [torch.nn.Upsample(size=(H, W), mode='bilinear')] *)
  upsample_size : nat * nat -> map1 -> result map1;
  (** [photos.shape[2:4]] *)
  shape_hw : tensor P -> nat * nat;
  (** [L2Norm(x, dim=1)] *)
  L2Norm : tensor P -> tensor P;
  (** [x.permute(0, 2, 3, 1)], read as values *)
  permute_0231 : tensor P -> volume
}.

(** [nn.Sequential]: the layers in order. *)
Fixpoint nn_sequential {P Wt : Type} `{Torch P Wt}
    (ls : list (layer Wt)) (x : tensor P) : result (tensor P) :=
  match ls with
  | [] => Ok x
  | l :: ls' => y <- apply_layer l x ;; nn_sequential ls' y
  end.

(** [F.leaky_relu] with its default slope 0.01. *)
Definition leaky_relu (x : map1) : map1 :=
  map3 (fun v => (Rmax 0 v + 0.01 * Rmin 0 v)%R) x.

(** ** [InvertedResidual] *)

Module InvertedResidual.

Record t (Wt : Type) : Type := mk {
  benchmodel : Z;
  stride : Z;
  banch1 : option (list (layer Wt));
  banch2 : list (layer Wt)
}.
Arguments mk {Wt}.
Arguments benchmodel {Wt}.
Arguments stride {Wt}.
Arguments banch1 {Wt}.
Arguments banch2 {Wt}.

(** [__init__]; [w i] is the initial parameter payload of the [i]-th
    parameterised layer the constructor creates.  The layers are built in
    the order the source lists them, so the first constructor that
    rejects its arguments decides the exception. *)
Definition init {Wt : Type} (w : nat -> Wt) (inp oup stride benchmodel : Z)
  : result (t Wt) :=
  if negb ((stride =? 1) || (stride =? 2))%Z then Raise AssertionError else
  let oup_inc := (oup / 2)%Z in
  if (benchmodel =? 1)%Z then
    b2 <- new_Sequential
          [ new_Conv2d oup_inc oup_inc 1 1 0 1 1 false (w 0%nat);
            new_BatchNorm2d oup_inc (w 1%nat);
            Ok (ReLU true);
            new_Conv2d oup_inc oup_inc 3 stride 1 1 oup_inc false (w 2%nat);
            new_BatchNorm2d oup_inc (w 3%nat);
            new_Conv2d oup_inc oup_inc 1 1 0 1 1 false (w 4%nat);
            new_BatchNorm2d oup_inc (w 5%nat);
            Ok (ReLU true) ] ;;
    Ok (mk benchmodel stride None b2)
  else
    b1 <- new_Sequential
          [ new_Conv2d inp inp 3 stride 1 1 inp false (w 0%nat);
            new_BatchNorm2d inp (w 1%nat);
            new_Conv2d inp oup_inc 1 1 0 1 1 false (w 2%nat);
            new_BatchNorm2d oup_inc (w 3%nat);
            Ok (ReLU true) ] ;;
    b2 <- new_Sequential
          [ new_Conv2d inp oup_inc 1 1 0 1 1 false (w 4%nat);
            new_BatchNorm2d oup_inc (w 5%nat);
            Ok (ReLU true);
            new_Conv2d oup_inc oup_inc 3 stride 1 1 oup_inc false (w 6%nat);
            new_BatchNorm2d oup_inc (w 7%nat);
            new_Conv2d oup_inc oup_inc 1 1 0 1 1 false (w 8%nat);
            new_BatchNorm2d oup_inc (w 9%nat);
            Ok (ReLU true) ] ;;
    Ok (mk benchmodel stride (Some b1) b2).

(** [_concat]: [torch.cat((x, out), 1)].  Planes being abstract, only a
    batch-size mismatch is seen here; [torch.cat] also raises
    [RuntimeError] when the heights or widths differ. *)
Definition _concat {P : Type} (x out : tensor P) : result (tensor P) :=
  zip_exact (fun s1 s2 => Ok (s1 ++ s2)) x out.

(** [forward].  [out] is bound by neither branch when [benchmodel] is
    not 1 or 2; reading it then raises [UnboundLocalError]. *)
Definition forward {P Wt : Type} `{Torch P Wt} (self : t Wt) (x : tensor P)
  : result (tensor P) :=
  out <- (if (1 =? benchmodel self)%Z then
            let x1 := map (fun s => firstn (length s / 2) s) x in
            let x2 := map (fun s => skipn (length s / 2) s) x in
            y <- nn_sequential (banch2 self) x2 ;;
            _concat x1 y
          else if (2 =? benchmodel self)%Z then
            match banch1 self with
            | None => Raise AttributeError
            | Some b1 =>
                y1 <- nn_sequential b1 x ;;
                y2 <- nn_sequential (banch2 self) x ;;
                _concat y1 y2
            end
          else Raise UnboundLocalError) ;;
  channel_shuffle out 2.

End InvertedResidual.

(** ** The helpers of [utils.image_utils]

    [det.py] imports [filter_border], [nms], [topk_map],
    [get_gauss_filter_weight], [soft_nms_3d] and [soft_max_and_argmax_1d];
    their definitions are in another file of the repository. *)

(** A (B, H, W, 1) score map (the unit axis dropped), in binary64, and a
    boolean mask of the same layout. *)
Definition smap : Type := list (list (list float)).
Definition bmap : Type := list (list (list bool)).
Definition kernel : Type := list (list float).

(** The interface [RFDet.process] uses; [F_conv2d] is torch's. *)
Class ImageUtils : Type := {
  filter_border : smap -> smap;
  nms : smap -> float -> nat -> bmap;
  topk_map : smap -> nat -> bmap;
  get_gauss_filter_weight : nat -> float -> kernel;
  (** [F.conv2d(input, weight, stride=1, padding)] on one channel *)
  F_conv2d : smap -> kernel -> nat -> smap
}.

Module image_utils.

(** Modelled from the spec: [filter_border] is missing from the sources;
    "zero out a fixed-width border region".  The width is [radius]. *)
Definition filter_border (radius : nat) (x : smap) : smap :=
  map (fun img =>
         mapi (fun i row =>
                 mapi (fun j v =>
                         if (radius <=? i) && (i + radius <? length img)
                            && (radius <=? j) && (j + radius <? length row)
                         then v else 0%float) row) img) x.

(** Modelled from the spec: the local-maximum test of the missing [nms];
    whether [v], at row [i] and column [j], is at least every value of
    the [ksize] x [ksize] window centred there (positions outside the
    image do not compete). *)
Definition is_local_max (img : list (list float)) (ksize i j : nat) (v : float)
  : bool :=
  let r := ksize / 2 in
  forallb (fun di =>
    forallb (fun dj =>
      if (r <=? i + di) && (r <=? j + dj) then
        match nth_error img (i + di - r) with
        | Some row =>
            match nth_error row (j + dj - r) with
            | Some u => PrimFloat.leb u v
            | None => true
            end
        | None => true
        end
      else true) (seq 0 ksize)) (seq 0 ksize).

(** Modelled from the spec: [nms] is missing from the sources; the mask
    of "any pixel whose value is ... the local maximum within a square
    window of side NMS_KSIZE, gated by NMS_THRESH". *)
Definition nms (x : smap) (thresh : float) (ksize : nat) : bmap :=
  map (fun img =>
         mapi (fun i row =>
                 mapi (fun j v =>
                         PrimFloat.leb thresh v && is_local_max img ksize i j v)
                      row) img) x.

(** Modelled from the spec: the ranking of the missing [topk_map]; the
    number of positions of the flattened image that come before position
    [p] (value [v]) in descending order, earlier positions first among
    equal values (the spec leaves ties to the implementation). *)
Definition rank (flat : list float) (p : nat) (v : float) : nat :=
  length (filter (fun qu =>
                    PrimFloat.ltb v (snd qu)
                    || (PrimFloat.eqb (snd qu) v && (fst qu <? p)))
                 (combine (seq 0 (length flat)) flat)).

(** Modelled from the spec: [topk_map] is missing from the sources; the
    mask that "keeps only the K highest-scoring surviving positions per
    image". *)
Definition topk_map (x : smap) (k : nat) : bmap :=
  map (fun img =>
         let flat := concat img in
         mapi (fun i row =>
                 mapi (fun j v =>
                         rank flat (length (concat (firstn i img)) + j) v <? k)
                      row) img) x.

Definition sum_R (l : list R) : R := fold_right Rplus 0%R l.

(** Modelled from the spec: the soft-max mass of one pixel's scale bins,
    for the missing [soft_nms_3d] and [soft_max_and_argmax_1d]. *)
Definition pixel_mass (cs : R) (px : list R) : R :=
  sum_R (map (fun v => exp (cs * v)) px).

(** Modelled from the spec: the soft-max mass of the [ksize] x [ksize]
    neighbourhood of (i, j) over all scale bins, for the missing
    [soft_nms_3d]. *)
Definition window_mass (cs : R) (img : list (list (list R))) (ksize i j : nat) : R :=
  let r := ksize / 2 in
  sum_R (map (fun di =>
    sum_R (map (fun dj =>
      if (r <=? i + di) && (r <=? j + dj) then
        match nth_error img (i + di - r) with
        | Some row =>
            match nth_error row (j + dj - r) with
            | Some px => pixel_mass cs px
            | None => 0%R
            end
        | None => 0%R
        end
      else 0%R) (seq 0 ksize))) (seq 0 ksize)).

(** Modelled from the spec: [soft_nms_3d] is missing from the sources;
    "differentiable relaxation of non-maximum suppression using a
    softmax-weighted local competition", over a spatial neighbourhood of
    side [ksize] and all scale bins, with competition strength
    [com_strength]. *)
Definition soft_nms_3d (scale_logits : volume) (ksize : nat) (com_strength : R)
  : volume :=
  map (fun img =>
         mapi (fun i row =>
                 mapi (fun j px =>
                         map (fun v =>
                                (exp (com_strength * v)
                                 / window_mass com_strength img ksize i j)%R) px)
                      row) img) scale_logits.

(** Modelled from the spec: the soft-max weights of one pixel's bins and
    the weighted sum, for the missing [soft_max_and_argmax_1d]. *)
Definition softmax (cs : R) (px : list R) : list R :=
  map (fun v => (exp (cs * v) / pixel_mass cs px)%R) px.

Definition dot (a b : list R) : R :=
  sum_R (map (fun xy => (fst xy * snd xy)%R) (combine a b)).

(** Modelled from the spec: [soft_max_and_argmax_1d] is missing from the
    sources; "a fused score map, a soft-weighted combination of the
    per-scale values, and a fused scale map, a soft-weighted combination
    of the fixed scale anchors", each with its own competition strength,
    the reduced axis kept with size 1. *)
Definition soft_max_and_argmax_1d (input : volume) (scale_list : list R)
    (com_strength1 com_strength2 : R) : volume * volume :=
  (map3 (fun px => [dot px (softmax com_strength1 px)]) input,
   map3 (fun px => [dot scale_list (softmax com_strength2 px)]) input).

(** The spec-modelled helpers as an [ImageUtils]; the Gaussian kernel and
    the convolution are supplied by the caller. *)
Definition spec (radius : nat) (gauss : nat -> float -> kernel)
    (conv : smap -> kernel -> nat -> smap) : ImageUtils :=
  Build_ImageUtils (filter_border radius) nms topk_map gauss conv.

End image_utils.

(** ** Binary64 helpers *)

Definition tensor4f : Type := list (list (list (list float))).

(** [sum] over a flattened tensor.  torch does not fix the order of the
    additions; row-major order is used here. *)
Definition sum_f (l : list float) : float := fold_left PrimFloat.add l 0%float.

(** [x.sum(dim=(3, 2, 1))] on one batch element. *)
Definition sum_dims321 (s : list (list (list float))) : float :=
  sum_f (concat (concat s)).

Definition float_of_nat (n : nat) : float :=
  PrimFloat.of_uint63 (Uint63.of_Z (Z.of_nat n)).

(** [x.mean()] of a 1-d tensor: NaN on the empty one, as [0 / 0]. *)
Definition mean_f (l : list float) : float :=
  (sum_f l / float_of_nat (length l))%float.

(** [torch.clamp(x, min=lo)] and [x.clamp(min=lo, max=hi)]; NaN stays. *)
Definition clamp_min (lo x : float) : float :=
  if PrimFloat.ltb x lo then lo else x.

Definition clamp (lo hi x : float) : float :=
  if PrimFloat.ltb x lo then lo else if PrimFloat.ltb hi x then hi else x.

Definition float_of_bool (b : bool) : float := if b then 1%float else 0%float.

Definition map4 {A B : Type} (f : A -> B)
  : list (list (list (list A))) -> list (list (list (list B))) :=
  map (map (map (map f))).

(** [torch.zeros_like]. *)
Definition zeros_like (x : tensor4f) : tensor4f := map4 (fun _ => 0%float) x.

Definition Forall2_4 {A B : Type} (Q : A -> B -> Prop)
  : list (list (list (list A))) -> list (list (list (list B))) -> Prop :=
  Forall2 (Forall2 (Forall2 (Forall2 Q))).

(** ** Tensors of any binary floating-point format

    A torch tensor holds values of its own dtype: [torch.float32], the
    default, is the format of precision 24 and exponent bound 128,
    [torch.float64] the one of precision 53 and exponent bound 1024 (the
    primitive floats above).  A value of the format of precision [prc]
    and exponent bound [emx] is a [spec_float]; the operations round to
    nearest, ties to even. *)

Definition tensor4s : Type := list (list (list (list spec_float))).

Section Format.
Variables prc emx : Z.

(** An integer, and a Python float (a binary64 scalar), converted to the
    format. *)
Definition fmt_of_Z (n : Z) : spec_float := binary_normalize prc emx n 0 false.

Definition fmt_of_float (x : float) : spec_float :=
  match Prim2SF x with
  | S754_finite s m e => binary_normalize prc emx (cond_Zopp s (Z.pos m)) e s
  | r => r
  end.

Definition sf_is_finite (r : spec_float) : bool :=
  match r with
  | S754_zero _ | S754_finite _ _ _ => true
  | _ => false
  end.

(** [sum], [x.sum(dim=(3, 2, 1))] on one batch element, [x.mean()] and
    [torch.clamp(x, min=lo)], as for binary64 above. *)
Definition sf_sum (l : list spec_float) : spec_float :=
  fold_left (SFadd prc emx) l (S754_zero false).

Definition sf_sum_dims321 (s : list (list (list spec_float))) : spec_float :=
  sf_sum (concat (concat s)).

Definition sf_mean (l : list spec_float) : spec_float :=
  SFdiv prc emx (sf_sum l) (fmt_of_Z (Z.of_nat (length l))).

Definition sf_clamp_min (lo x : spec_float) : spec_float :=
  if SFltb x lo then lo else x.

Definition zeros_like_s (x : tensor4s) : tensor4s :=
  map4 (fun _ => S754_zero false) x.
End Format.

(** ** [RFDet] *)

Module RFDet.

Record t (Wt : Type) : Type := mk {
  score_com_strength : R;
  scale_com_strength : R;
  NMS_THRESH : float;
  NMS_KSIZE : nat;
  TOPK : nat;
  GAUSSIAN_KSIZE : nat;
  GAUSSIAN_SIGMA : float;
  features : list (InvertedResidual.t Wt);
  conv_1_1 : layer Wt;
  insnorm_1_1 : layer Wt;
  conv_scale : layer Wt;
  insnorm_scale : layer Wt;
  conv_ori : layer Wt;
  scale_list : list R
}.
Arguments mk {Wt}.
Arguments score_com_strength {Wt}.
Arguments scale_com_strength {Wt}.
Arguments NMS_THRESH {Wt}.
Arguments NMS_KSIZE {Wt}.
Arguments TOPK {Wt}.
Arguments GAUSSIAN_KSIZE {Wt}.
Arguments GAUSSIAN_SIGMA {Wt}.
Arguments features {Wt}.
Arguments conv_1_1 {Wt}.
Arguments insnorm_1_1 {Wt}.
Arguments conv_scale {Wt}.
Arguments insnorm_scale {Wt}.
Arguments conv_ori {Wt}.
Arguments scale_list {Wt}.

(** [__init__]; [w] supplies the initial parameters as in
    [InvertedResidual.init].  The [scale_list] argument is not read. *)
Definition init {Wt : Type} (w : nat -> Wt)
    (score_com_strength scale_com_strength : R)
    (nms_thresh : float) (nms_ksize topk gauss_ksize : nat) (gauss_sigma : float)
    (ksize padding dilation : Z) (scale_list : list R) : result (t Wt) :=
  f1 <- InvertedResidual.init w 3 12 1 2 ;;
  f2 <- InvertedResidual.init (fun i => w (10 + i)%nat) 12 12 1 1 ;;
  conv_1_1 <- new_Conv2d 12 1 ksize 1 padding dilation 1 true (w 16%nat) ;;
  insnorm_1_1 <- new_InstanceNorm2d 1 true (w 17%nat) ;;
  conv_scale <- new_Conv2d 3 1 3 1 1 1 1 true (w 18%nat) ;;
  insnorm_scale <- new_InstanceNorm2d 1 true (w 19%nat) ;;
  conv_ori <- new_Conv2d 12 2 1 1 0 1 1 true (w 20%nat) ;;
  Ok (mk score_com_strength scale_com_strength
        nms_thresh nms_ksize topk gauss_ksize gauss_sigma
        [f1; f2]
        conv_1_1 insnorm_1_1 conv_scale insnorm_scale conv_ori
        [12; 32; 64]%R).

(** [self.features(photos)]: the blocks in order. *)
Fixpoint run_features {P Wt : Type} `{Torch P Wt}
    (blocks : list (InvertedResidual.t Wt)) (x : tensor P) : result (tensor P) :=
  match blocks with
  | [] => Ok x
  | b :: bs => y <- InvertedResidual.forward b x ;; run_features bs y
  end.

(** [torch.cat((a, b, c), 1).permute(0, 2, 3, 1)] of three single-channel
    maps. *)
Definition stack3 (a b c : map1) : result volume :=
  ab <- zip3d (fun x y => (x, y)) a b ;;
  zip3d (fun xy z => [fst xy; snd xy; z]) ab c.

(** The first half of [forward]: the channel-last per-scale score maps
    of a feature map, for photos of height and width [hw]. *)
Definition score_maps {P Wt : Type} `{Torch P Wt} (self : t Wt)
    (hw : nat * nat) (feature_map : tensor P) : result volume :=
  feature_map_2 <- upsample_scale 0.75%R feature_map ;;
  feature_map_3 <- upsample_scale 0.5%R feature_map ;;
  c1 <- conv_single (conv_1_1 self) feature_map ;;
  n1 <- norm_single (insnorm_1_1 self) c1 ;;
  let feature_map_1 := leaky_relu n1 in
  c2 <- conv_single (conv_1_1 self) feature_map_2 ;;
  n2 <- norm_single (insnorm_1_1 self) c2 ;;
  let feature_map_2 := leaky_relu n2 in
  c3 <- conv_single (conv_1_1 self) feature_map_3 ;;
  n3 <- norm_single (insnorm_1_1 self) c3 ;;
  let feature_map_3 := leaky_relu n3 in
  u2 <- upsample_size hw feature_map_2 ;;
  u3 <- upsample_size hw feature_map_3 ;;
  stack3 feature_map_1 u2 u3.

(** [forward]: the score, scale and orientation maps. *)
Definition forward {P Wt : Type} `{Torch P Wt} (self : t Wt) (photos : tensor P)
  : result (volume * volume * volume) :=
  let hw := shape_hw photos in
  feature_map <- run_features (features self) photos ;;
  score_maps <- score_maps self hw feature_map ;;
  let scale_probs := image_utils.soft_nms_3d score_maps 15 10%R in
  let '(score_map, scale_map) :=
    image_utils.soft_max_and_argmax_1d scale_probs (scale_list self)
      (score_com_strength self) (scale_com_strength self) in
  o <- apply_layer (conv_ori self) feature_map ;;
  let ori_map := permute_0231 (L2Norm o) in
  Ok (score_map, scale_map, ori_map).

(** [process]: border filter, NMS, top-k, Gaussian smoothing, clamp. *)
Definition process {Wt : Type} `{ImageUtils} (self : t Wt) (im1w_score : smap)
  : result (smap * bmap * smap) :=
  let im1w_score := filter_border im1w_score in
  let nms_mask := nms im1w_score (NMS_THRESH self) (NMS_KSIZE self) in
  im1w_score <- zip3d (fun v b => (v * float_of_bool b)%float) im1w_score nms_mask ;;
  let topk_value := im1w_score in
  let topk_mask := topk_map im1w_score (TOPK self) in
  im1w_score <- zip3d (fun b v => (float_of_bool b * v)%float) topk_mask im1w_score ;;
  let psf := get_gauss_filter_weight (GAUSSIAN_KSIZE self) (GAUSSIAN_SIGMA self) in
  let im1w_score := F_conv2d im1w_score psf (GAUSSIAN_KSIZE self / 2) in
  let im1w_score := map3 (clamp 0 1) im1w_score in
  Ok (im1w_score, topk_mask, topk_value).

(** [loss]: masked squared error per batch element, divided by the
    visible-pixel count clamped from below at 2.0, averaged.

    [loss_in prc emx] is [loss] on tensors of the format of precision
    [prc] and exponent bound [emx]; [loss_Nvi] is its local [Nvi], the
    clamped visible-pixel count of each batch element.  The three tensors
    are taken to have one shape and one dtype (broadcasting and type
    promotion are not modelled), and sums are taken in row-major order. *)
Definition loss_Nvi (prc emx : Z) (im1visible_mask : tensor4s)
  : list spec_float :=
  map (fun s => sf_clamp_min (fmt_of_float prc emx 2) (sf_sum_dims321 prc emx s))
    im1visible_mask.

Definition loss_in (prc emx : Z)
    (left_score im1gt_score im1visible_mask : tensor4s) : result spec_float :=
  let im1_score := left_score in
  l2_element_diff <-
    zip4d (fun a b => SFmul prc emx (SFsub prc emx a b) (SFsub prc emx a b))
      im1_score im1gt_score ;;
  let Nvi := loss_Nvi prc emx im1visible_mask in
  masked <- zip4d (SFmul prc emx) l2_element_diff im1visible_mask ;;
  q <- zip_exact (fun s n => Ok (SFdiv prc emx (sf_sum_dims321 prc emx s)
                                   (SFadd prc emx n (fmt_of_float prc emx 1e-8))))
         masked Nvi ;;
  Ok (sf_mean prc emx q).

(** [loss] on [torch.float64] tensors, with the primitive binary64
    operations: [loss_in 53 1024] (lemma [loss_binary64]). *)
Definition loss (left_score im1gt_score im1visible_mask : tensor4f) : result float :=
  let im1_score := left_score in
  l2_element_diff <-
    zip4d (fun a b => ((a - b) * (a - b))%float) im1_score im1gt_score ;;
  let Nvi := map (fun s => clamp_min 2 (sum_dims321 s)) im1visible_mask in
  masked <- zip4d PrimFloat.mul l2_element_diff im1visible_mask ;;
  q <- zip_exact (fun s n => Ok (sum_dims321 s / (n + 1e-8))%float) masked Nvi ;;
  Ok (mean_f q).

End RFDet.

(** ** Named stages of [forward] and [process], for the statements *)

(** One score head: convolution, instance norm, leaky ReLU, with the
    parameters of the layers [conv] and [norm]. *)
Definition score_head {P Wt : Type} `{Torch P Wt}
    (conv norm : layer Wt) (x : tensor P) : result map1 :=
  c <- conv_single conv x ;;
  n <- norm_single norm c ;;
  Ok (leaky_relu n).

(** The per-scale score maps as the specification words them: one head
    [score_head conv norm] applied to the feature map and to its 0.75x
    and 0.5x resampled copies, the latter two brought back to [hw] and
    the three stacked. *)
Definition shared_head_scores {P Wt : Type} `{Torch P Wt}
    (conv norm : layer Wt) (hw : nat * nat) (fm : tensor P) : result volume :=
  f2 <- upsample_scale 0.75%R fm ;;
  f3 <- upsample_scale 0.5%R fm ;;
  m1 <- score_head conv norm fm ;;
  m2 <- score_head conv norm f2 ;;
  m3 <- score_head conv norm f3 ;;
  u2 <- upsample_size hw m2 ;;
  u3 <- upsample_size hw m3 ;;
  RFDet.stack3 m1 u2 u3.

(** The second half of [forward], from the feature map and the per-scale
    score maps. *)
Definition fuse {P Wt : Type} `{Torch P Wt}
    (self : RFDet.t Wt) (fm : tensor P) (score_maps : volume)
  : result (volume * volume * volume) :=
  let scale_probs := image_utils.soft_nms_3d score_maps 15 10%R in
  let '(score_map, scale_map) :=
    image_utils.soft_max_and_argmax_1d scale_probs (RFDet.scale_list self)
      (RFDet.score_com_strength self) (RFDet.scale_com_strength self) in
  o <- apply_layer (RFDet.conv_ori self) fm ;;
  Ok (score_map, scale_map, permute_0231 (L2Norm o)).

(** The score map after the border filter and the NMS mask. *)
Definition nms_masked {Wt : Type} `{ImageUtils} (self : RFDet.t Wt) (x : smap)
  : result smap :=
  let y := filter_border x in
  zip3d (fun v b => (v * float_of_bool b)%float) y
    (nms y (RFDet.NMS_THRESH self) (RFDet.NMS_KSIZE self)).

(** The same, after the top-k mask as well. *)
Definition topk_masked {Wt : Type} `{ImageUtils} (self : RFDet.t Wt) (x : smap)
  : result smap :=
  y <- nms_masked self x ;;
  zip3d (fun b v => (float_of_bool b * v)%float)
    (topk_map y (RFDet.TOPK self)) y.

(** ** Small instances, to run the definitions on examples *)

(** A degenerate torch: every layer and resampling is the identity, every
    single-channel convolution returns a one-pixel map per sample. *)
Definition unit_torch : Torch unit unit :=
  {| apply_layer := fun _ x => Ok x;
     conv_single := fun _ x => Ok (map (fun _ => [[1%R]]) x);
     norm_single := fun _ x => Ok x;
     upsample_scale := fun _ x => Ok x;
     upsample_size := fun _ x => Ok x;
     shape_hw := fun _ => (1, 1);
     L2Norm := fun x => x;
     permute_0231 := fun x => map (fun s => [[map (fun _ => 1%R) s]]) x |}.

(** The spec-modelled helpers with a one-pixel border, a unit kernel and
    a convolution that returns its input. *)
Definition demo_utils : ImageUtils :=
  image_utils.spec 1 (fun _ _ => [[1%float]]) (fun x _ _ => x).

(** A detector with a 3 x 3 NMS window, threshold 0 and [TOPK = 1]. *)
Definition demo_detector : result (RFDet.t unit) :=
  RFDet.init (fun _ => tt) 3 3 0 3 1 3 0.5 3 1 1 [].

(** One 5 x 5 score map: a border value and two interior peaks. *)
Definition demo_scores : smap :=
  [[ [0.75; 0; 0; 0; 0];
     [0; 0.5; 0; 0; 0];
     [0; 0; 0; 0; 0];
     [0; 0; 0; 0.25; 0];
     [0; 0; 0; 0; 0] ]]%float.

(** The [torch.float32] score maps [[0.5, 0.25], [1, 0]] and
    [[0, 0.25], [0.5, 1]]. *)
Definition demo_left_score : tensor4s :=
  [[[[S754_finite false 8388608 (-24); S754_finite false 8388608 (-25)]]];
   [[[S754_finite false 8388608 (-23); S754_zero false]]]].

Definition demo_gt_score : tensor4s :=
  [[[[S754_zero false; S754_finite false 8388608 (-25)]]];
   [[[S754_finite false 8388608 (-24); S754_finite false 8388608 (-23)]]]].

(** ** Further definitions for the statements *)

(** Entry [i] of row [k] of a list of rows, when both exist. *)
Definition get2 {A : Type} (m : list (list A)) (k i : nat) : option A :=
  match nth_error m k with
  | Some row => nth_error row i
  | None => None
  end.

(** [has_shape b c x]: a batch of [b] samples of [c] channels each. *)
Definition has_shape {P : Type} (b c : nat) (x : tensor P) : Prop :=
  length x = b /\ Forall (fun s => length s = c) x.

(** [conv_bn] and [conv_1x1_bn]: the two [nn.Sequential] builders at the
    head of the file; [w i] is the initial parameter payload of the
    [i]-th parameterised layer. *)
Definition conv_bn {Wt : Type} (w : nat -> Wt) (inp oup stride : Z)
  : result (list (layer Wt)) :=
  new_Sequential
    [ new_Conv2d inp oup 3 stride 1 1 1 false (w 0%nat);
      new_BatchNorm2d oup (w 1%nat);
      Ok (ReLU true) ].

Definition conv_1x1_bn {Wt : Type} (w : nat -> Wt) (inp oup : Z)
  : result (list (layer Wt)) :=
  new_Sequential
    [ new_Conv2d inp oup 1 1 0 1 1 false (w 0%nat);
      new_BatchNorm2d oup (w 1%nat);
      Ok (ReLU true) ].

(** The channel checks of torch's layers, as an assumption on the torch
    interface.  Nothing is assumed about when a call returns; a call that
    does return has checked its input.  A [Conv2d] the constructor
    accepted returns only on samples of [in_channels] channels and gives
    as many samples of [out_channels] channels; a [BatchNorm2d n] returns
    only on [n]-channel samples and keeps the shape; [ReLU] keeps the
    shape. *)
Record channel_typed {P Wt : Type} (T : Torch P Wt) : Prop := {
  conv_typed :
    forall inp oup k s p d g bias w l (x y : tensor P),
      new_Conv2d inp oup k s p d g bias w = Ok l ->
      apply_layer l x = Ok y ->
      has_shape (length x) (Z.to_nat inp) x
      /\ has_shape (length x) (Z.to_nat oup) y;
  bn_typed :
    forall n w l (x y : tensor P),
      new_BatchNorm2d n w = Ok l ->
      apply_layer l x = Ok y ->
      has_shape (length x) (Z.to_nat n) x
      /\ has_shape (length x) (Z.to_nat n) y;
  relu_typed :
    forall i (x y : tensor P),
      apply_layer (ReLU i) x = Ok y ->
      Forall2 (fun s t => length s = length t) x y
}.

(** [typed_seq ls c c']: the layers [ls] were accepted by their
    constructors and chain from [c]-channel samples to [c']-channel
    samples. *)
Inductive typed_seq {Wt : Type} : list (layer Wt) -> nat -> nat -> Prop :=
| typed_nil c : typed_seq [] c c
| typed_conv inp oup k s p d g bias w l ls c' :
    new_Conv2d inp oup k s p d g bias w = Ok l ->
    typed_seq ls (Z.to_nat oup) c' ->
    typed_seq (l :: ls) (Z.to_nat inp) c'
| typed_bn n w l ls c' :
    new_BatchNorm2d n w = Ok l ->
    typed_seq ls (Z.to_nat n) c' ->
    typed_seq (l :: ls) (Z.to_nat n) c'
| typed_relu i ls c c' :
    typed_seq ls c c' -> typed_seq (ReLU i :: ls) c c'.

Definition all_channels {P : Type} (c : nat) (x : tensor P) : bool :=
  forallb (fun s => length s =? c) x.

(** A torch that keeps only the channel counts: planes carry no data, a
    layer checks the channel count of its input and sets that of its
    output. *)
Definition shape_torch : Torch unit unit :=
  {| apply_layer := fun l x =>
       match l with
       | Conv2d inp oup _ _ _ _ _ _ _ =>
           if all_channels (Z.to_nat inp) x
           then Ok (map (fun _ => repeat tt (Z.to_nat oup)) x)
           else Raise RuntimeError
       | BatchNorm2d n _ | InstanceNorm2d n _ _ =>
           if all_channels (Z.to_nat n) x then Ok x else Raise RuntimeError
       | ReLU _ => Ok x
       end;
     conv_single := fun _ x => Ok (map (fun _ => [[1%R]]) x);
     norm_single := fun _ x => Ok x;
     upsample_scale := fun _ x => Ok x;
     upsample_size := fun _ x => Ok x;
     shape_hw := fun _ => (1, 1);
     L2Norm := fun x => x;
     permute_0231 := fun x => map (fun s => [[map (fun _ => 1%R) s]]) x |}.

(** A torch over any plane type whose layers and resamplings return their
    input. *)
Definition identity_torch (P : Type) : Torch P unit :=
  {| apply_layer := fun _ x => Ok x;
     conv_single := fun _ x => Ok (map (fun _ => [[1%R]]) x);
     norm_single := fun _ x => Ok x;
     upsample_scale := fun _ x => Ok x;
     upsample_size := fun _ x => Ok x;
     shape_hw := fun _ => (1, 1);
     L2Norm := fun x => x;
     permute_0231 := fun x => map (fun s => [[map (fun _ => 1%R) s]]) x |}.

(** Classes of a floating-point value, read on its specification: positive
    (finite or infinite), and positive or the positive zero. *)
Definition sf_pos (r : spec_float) : Prop :=
  match r with
  | S754_finite false _ _ | S754_infinity false => True
  | _ => False
  end.

Definition sf_nonneg (r : spec_float) : Prop :=
  match r with
  | S754_zero false => True
  | _ => sf_pos r
  end.

(** The exponent of a finite value is not below the least exponent of the
    format. *)
Definition sf_valid (prc emx : Z) (r : spec_float) : Prop :=
  match r with
  | S754_finite _ _ e => (SpecFloat.emin prc emx <= e)%Z
  | _ => True
  end.

(** The parameters a layer owns: the values of its weight tensor and,
    when the layer has a bias, those of its bias tensor. *)
Record params : Type := {
  weight : list float;
  bias : option (list float)
}.

(** [RFDet.convO_init]: on a [Conv2d] the weights are set to zero and the
    bias, when there is one, to one (without a bias, [m.bias.data] raises
    and the bare [except] swallows it); other modules are left alone. *)
Definition convO_init (m : layer params) : layer params :=
  match m with
  | Conv2d i o k s p d g b w =>
      Conv2d i o k s p d g b
        {| weight := map (fun _ => 0%float) (weight w);
           bias := option_map (map (fun _ => 1%float)) (bias w) |}
  | _ => m
  end.

(** * Properties *)

(** ** Channel shuffle *)

Section ShuffleFacts.
Context {P : Type}.
Implicit Types (l r : list P) (m : list (list P)).

Lemma rect_cons g n r m :
  rect (S g) n (r :: m) <-> length r = n /\ rect g n m.
Proof.
  unfold rect; simpl; split.
  - intros [Hl Hf]. inversion Hf; subst. repeat split; auto.
  - intros [Hr [Hl Hf]]. split; [congruence | constructor; auto].
Qed.

Lemma view_groups_rect g n l :
  length l = g * n -> rect g n (view_groups g n l).
Proof.
  revert l; induction g as [|g IH]; intros l Hl; simpl.
  - split; [reflexivity | constructor].
  - apply rect_cons. split.
    + rewrite length_firstn. simpl in Hl. lia.
    + apply IH. rewrite length_skipn. simpl in Hl. lia.
Qed.

Lemma concat_view_groups g n l :
  length l = g * n -> concat (view_groups g n l) = l.
Proof.
  revert l; induction g as [|g IH]; intros l Hl; simpl.
  - destruct l; [reflexivity | discriminate].
  - rewrite IH, firstn_skipn; [reflexivity|].
    rewrite length_skipn. simpl in Hl. lia.
Qed.

Lemma view_groups_concat g n m :
  rect g n m -> view_groups g n (concat m) = m.
Proof.
  revert g; induction m as [|r m IH]; intros g [Hl Hf].
  - simpl in Hl; subst g; reflexivity.
  - simpl in Hl; subst g. inversion Hf; subst. simpl.
    rewrite firstn_app, Nat.sub_diag, firstn_all, firstn_O, app_nil_r.
    rewrite skipn_app, Nat.sub_diag, skipn_all, skipn_O. simpl.
    rewrite IH; [reflexivity | split; auto].
Qed.

Lemma length_concat_rect g n m : rect g n m -> length (concat m) = g * n.
Proof.
  revert g; induction m as [|r m IH]; intros g [Hl Hf]; simpl in *; subst g.
  - reflexivity.
  - inversion Hf; subst. rewrite length_app, (IH (length m)); [lia | split; auto].
Qed.

Lemma zip_cons_rect g n r m :
  length r = n -> rect n g m -> rect n (S g) (zip_cons r m).
Proof.
  revert n m; induction r as [|a r IH]; intros n m Hr [Hl Hf]; simpl in *; subst n.
  - split; [reflexivity | constructor].
  - destruct m as [|c m]; [discriminate|]. inversion Hf; subst.
    apply rect_cons. split; [simpl; congruence|].
    apply IH; [reflexivity | split; [simpl in Hl; lia | assumption]].
Qed.

Lemma repeat_nil_rect n : rect n 0 (repeat (@nil P) n).
Proof.
  split; [apply repeat_length|].
  induction n; simpl; constructor; auto.
Qed.

Lemma transpose_rect g n m : rect g n m -> rect n g (transpose n m).
Proof.
  revert g; induction m as [|r m IH]; intros g [Hl Hf]; simpl in *; subst g.
  - apply repeat_nil_rect.
  - inversion Hf; subst. apply zip_cons_rect; [reflexivity|].
    apply IH. split; auto.
Qed.

Lemma transpose_zip_cons g r m :
  length r = length m ->
  transpose (S g) (zip_cons r m) = r :: transpose g m.
Proof.
  revert m; induction r as [|a r IH]; intros [|c m] Hl; simpl in *;
    try discriminate; [reflexivity|].
  rewrite IH by lia. reflexivity.
Qed.

Lemma transpose_transpose g n m :
  rect g n m -> transpose g (transpose n m) = m.
Proof.
  revert g; induction m as [|r m IH]; intros g [Hl Hf]; simpl in *; subst g.
  - clear Hf. induction n; simpl; auto.
  - inversion Hf; subst.
    assert (Hm : rect (length m) (length r) m) by (split; auto).
    rewrite transpose_zip_cons.
    + rewrite IH; auto.
    + destruct (transpose_rect _ _ _ Hm) as [H _]. congruence.
Qed.

Lemma concat_zip_cons_perm r m :
  length r = length m -> Permutation (concat (zip_cons r m)) (r ++ concat m).
Proof.
  revert m; induction r as [|a r IH]; intros [|c m] Hl; simpl in *;
    try discriminate; [constructor|].
  constructor.
  rewrite (IH m) by lia.
  rewrite !app_assoc. apply Permutation_app_tail, Permutation_app_comm.
Qed.

Lemma concat_transpose_perm g n m :
  rect g n m -> Permutation (concat (transpose n m)) (concat m).
Proof.
  revert g; induction m as [|r m IH]; intros g [Hl Hf]; simpl in *; subst g.
  - clear Hf. induction n; simpl; auto.
  - inversion Hf; subst.
    assert (Hm : rect (length m) (length r) m) by (split; auto).
    rewrite concat_zip_cons_perm.
    + apply Permutation_app_head. eauto.
    + destruct (transpose_rect _ _ _ Hm) as [H _]. congruence.
Qed.

(** What [channel_shuffle_sample] returns on [g * n] channels. *)
Lemma channel_shuffle_sample_ok g n l :
  0 < g -> length l = g * n ->
  channel_shuffle_sample l g = Ok (concat (transpose n (view_groups g n l))).
Proof.
  intros Hg Hl. unfold channel_shuffle_sample.
  destruct (Nat.eqb_spec g 0) as [->|_]; [lia|].
  assert (Hd : length l / g = n)
    by (rewrite Hl, Nat.mul_comm; apply Nat.div_mul; lia).
  rewrite Hd, <- Hl, Nat.eqb_refl. reflexivity.
Qed.

Lemma shuffled_length g n l :
  length l = g * n ->
  length (concat (transpose n (view_groups g n l))) = n * g.
Proof.
  intros Hl. apply length_concat_rect, transpose_rect, view_groups_rect, Hl.
Qed.

End ShuffleFacts.

Section ShuffleBatch.
Context {P : Type}.
Implicit Types (l : list P).

Lemma interleave_length g n l :
  length l = g * n -> length (interleave g n l) = n * g.
Proof. apply shuffled_length. Qed.

Lemma interleave_inverse g n l :
  length l = g * n -> interleave n g (interleave g n l) = l.
Proof.
  intros Hl. unfold interleave.
  rewrite view_groups_concat by (apply transpose_rect, view_groups_rect, Hl).
  rewrite transpose_transpose by (apply view_groups_rect, Hl).
  apply concat_view_groups, Hl.
Qed.

Lemma interleave_perm g n l :
  length l = g * n -> Permutation l (interleave g n l).
Proof.
  intros Hl. unfold interleave. symmetry.
  rewrite (concat_transpose_perm g n) by (apply view_groups_rect, Hl).
  rewrite concat_view_groups by exact Hl. reflexivity.
Qed.

Lemma mapM_ok {A B : Type} (f : A -> result B) (h : A -> B) (x : list A) :
  Forall (fun a => f a = Ok (h a)) x -> mapM f x = Ok (map h x).
Proof.
  induction 1 as [|a x Ha _ IH]; simpl; [reflexivity|].
  rewrite Ha; simpl. rewrite IH; reflexivity.
Qed.

Lemma channel_shuffle_ok g n (x : tensor P) :
  0 < g -> x <> [] -> Forall (fun s => length s = g * n) x ->
  channel_shuffle x g = Ok (map (interleave g n) x).
Proof.
  intros Hg Hne Hx. unfold channel_shuffle.
  destruct (Nat.eqb_spec g 0) as [->|_]; [lia|].
  destruct x as [|s0 x]; [congruence|].
  apply mapM_ok.
  eapply Forall_impl; [|exact Hx].
  intros s Hs. apply channel_shuffle_sample_ok; assumption.
Qed.

Lemma interleave_batch_length g n (x : tensor P) :
  Forall (fun s => length s = g * n) x ->
  Forall (fun s => length s = n * g) (map (interleave g n) x).
Proof.
  intros Hx. apply Forall_map.
  eapply Forall_impl; [|exact Hx]. intros s. apply interleave_length.
Qed.

Lemma interleave_batch_inverse g n (x : tensor P) :
  Forall (fun s => length s = g * n) x ->
  map (interleave n g) (map (interleave g n) x) = x.
Proof.
  induction 1 as [|s x Hs _ IH]; simpl; [reflexivity|].
  rewrite interleave_inverse by exact Hs. rewrite IH. reflexivity.
Qed.

Lemma interleave_batch_perm g n (x : tensor P) :
  Forall (fun s => length s = g * n) x ->
  Forall2 (@Permutation P) x (map (interleave g n) x).
Proof.
  induction 1 as [|s x Hs _ IH]; simpl; constructor; auto.
  apply interleave_perm, Hs.
Qed.

(** On two or four channels the two-group interleave is an involution. *)
Lemma interleave_2_small n l :
  1 <= n <= 2 -> length l = 2 * n ->
  interleave 2 n (interleave 2 n l) = l.
Proof.
  intros Hn Hl.
  assert (Hc : n = 1 \/ n = 2) by lia.
  destruct Hc as [-> | ->].
  - destruct l as [|a [|b [|c l]]]; try discriminate. reflexivity.
  - destruct l as [|a [|b [|c [|d [|e l]]]]]; try discriminate. reflexivity.
Qed.
End ShuffleBatch.

(** C7 (as stated, refuted): on six channels two applications of
    [channel_shuffle] with two groups do not give the channels back. *)
Lemma channel_shuffle_twice_six_channels :
  Nat.even 6 = true
  /\ (y <- channel_shuffle [[0; 1; 2; 3; 4; 5]] 2 ;; channel_shuffle y 2)
     = Ok [[0; 4; 3; 2; 1; 5]]
  /\ (y <- channel_shuffle [[0; 1; 2; 3; 4; 5]] 2 ;; channel_shuffle y 2)
     <> Ok [[0; 1; 2; 3; 4; 5]].
Proof.
  split; [reflexivity|]. split; [reflexivity|].
  vm_compute. discriminate.
Qed.

(** C7 (amended): on every non-empty tensor with an even, non-zero number
    [2 * n] of channels, [channel_shuffle] with two groups succeeds and
    permutes the channels of each sample; it is a bijection whose
    inverse, on both sides, is [channel_shuffle] with [n] groups; and it
    is its own inverse when the tensor has two or four channels. *)
Theorem channel_shuffle_2_bijection {P : Type} (n : nat) (x : tensor P) :
  1 <= n ->
  x <> [] ->
  Forall (fun s => length s = 2 * n) x ->
  (exists y, channel_shuffle x 2 = Ok y
             /\ Forall2 (@Permutation P) x y
             /\ Forall (fun s => length s = 2 * n) y
             /\ channel_shuffle y n = Ok x)
  /\ (exists z, channel_shuffle x n = Ok z
                /\ Forall (fun s => length s = 2 * n) z
                /\ channel_shuffle z 2 = Ok x)
  /\ (n <= 2 -> (y <- channel_shuffle x 2 ;; channel_shuffle y 2) = Ok x).
Proof.
  intros Hn Hne Hx.
  assert (Hx' : Forall (fun s => length s = n * 2) x)
    by (eapply Forall_impl; [|exact Hx]; simpl; intros; lia).
  assert (Hmap : forall f : list P -> list P, map f x <> [])
    by (intros f E; apply map_eq_nil in E; contradiction).
  assert (H2 : channel_shuffle x 2 = Ok (map (interleave 2 n) x))
    by (apply channel_shuffle_ok; [lia | exact Hne | exact Hx]).
  assert (Hy : Forall (fun s => length s = n * 2) (map (interleave 2 n) x))
    by (apply interleave_batch_length, Hx).
  split; [|split].
  - exists (map (interleave 2 n) x). repeat split.
    + exact H2.
    + apply interleave_batch_perm, Hx.
    + eapply Forall_impl; [|exact Hy]. simpl; intros; lia.
    + rewrite (channel_shuffle_ok n 2) by (lia || apply Hmap || exact Hy).
      rewrite interleave_batch_inverse by exact Hx. reflexivity.
  - exists (map (interleave n 2) x). repeat split.
    + apply channel_shuffle_ok; [lia | exact Hne | exact Hx'].
    + apply interleave_batch_length, Hx'.
    + rewrite (channel_shuffle_ok 2 n)
        by (lia || apply Hmap || apply interleave_batch_length, Hx').
      rewrite interleave_batch_inverse by exact Hx'. reflexivity.
  - intros Hn2. rewrite H2. simpl.
    rewrite (channel_shuffle_ok 2 n).
    + f_equal. clear H2 Hy Hx' Hmap Hne.
      induction Hx as [|s x Hs _ IH]; simpl; [reflexivity|].
      rewrite interleave_2_small by (lia || exact Hs). rewrite IH. reflexivity.
    + lia.
    + apply Hmap.
    + eapply Forall_impl; [|exact Hy]. simpl; intros; lia.
Qed.

Lemma channel_shuffle_2_bijection_witness :
  (exists y, channel_shuffle [[0; 1; 2; 3]] 2 = Ok y
             /\ Forall2 (@Permutation nat) [[0; 1; 2; 3]] y
             /\ Forall (fun s => length s = 2 * 2) y
             /\ channel_shuffle y 2 = Ok [[0; 1; 2; 3]])
  /\ (exists z, channel_shuffle [[0; 1; 2; 3]] 2 = Ok z
                /\ Forall (fun s => length s = 2 * 2) z
                /\ channel_shuffle z 2 = Ok [[0; 1; 2; 3]])
  /\ (2 <= 2 -> (y <- channel_shuffle [[0; 1; 2; 3]] 2 ;; channel_shuffle y 2)
                = Ok [[0; 1; 2; 3]]).
Proof.
  apply (channel_shuffle_2_bijection 2 [[0; 1; 2; 3]]).
  - lia.
  - discriminate.
  - repeat constructor.
Defined.

(** ** [InvertedResidual]: the constructor *)

Section Constructors.
Context {Wt : Type}.

Lemma new_Conv2d_ok (i o k s p d g : Z) (b : bool) (w : Wt) :
  (0 < g)%Z -> (i mod g = 0)%Z -> (o mod g = 0)%Z ->
  (0 <= i)%Z -> (0 <= o)%Z -> (0 <= k)%Z ->
  new_Conv2d i o k s p d g b w = Ok (Conv2d i o k s p d g b w).
Proof.
  intros Hg Hi Ho Hi0 Ho0 Hk. unfold new_Conv2d.
  destruct (Z.leb_spec g 0) as [?|_]; [lia|].
  rewrite Hi, Ho. cbn [Z.eqb negb].
  destruct (Z.ltb_spec o 0) as [?|_]; [lia|].
  destruct (Z.ltb_spec (i / g) 0) as [Hq|_].
  { pose proof (Z.div_pos i g Hi0 Hg). lia. }
  destruct (Z.ltb_spec k 0) as [?|_]; [lia|].
  reflexivity.
Qed.

Lemma new_Conv2d_groups (i o k s p d g : Z) (b : bool) (w : Wt) :
  (g <= 0)%Z -> new_Conv2d i o k s p d g b w = Raise ValueError.
Proof.
  intros Hg. unfold new_Conv2d.
  destruct (Z.leb_spec g 0) as [_|?]; [reflexivity|lia].
Qed.

Lemma new_Conv2d_negative (i o k s p d : Z) (b : bool) (w : Wt) :
  (o < 0)%Z -> new_Conv2d i o k s p d 1 b w = Raise RuntimeError.
Proof.
  intros Ho. unfold new_Conv2d.
  change (1 <=? 0)%Z with false. rewrite !Z.mod_1_r. cbn [Z.eqb negb].
  destruct (Z.ltb_spec o 0) as [_|?]; [reflexivity|lia].
Qed.

Lemma new_BatchNorm2d_ok (n : Z) (w : Wt) :
  (0 <= n)%Z -> new_BatchNorm2d n w = Ok (BatchNorm2d n w).
Proof.
  intros Hn. unfold new_BatchNorm2d.
  destruct (Z.ltb_spec n 0) as [?|_]; [lia|reflexivity].
Qed.

(** The outcome of the constructor by cases on its arguments: the
    depthwise convolutions are given [groups = inp] and
    [groups = oup // 2]. *)
Lemma init_cases (w : nat -> Wt) (inp oup stride benchmodel : Z) :
  InvertedResidual.init w inp oup stride benchmodel
  =
  let oup_inc := (oup / 2)%Z in
  if negb ((stride =? 1) || (stride =? 2))%Z then Raise AssertionError
  else if (benchmodel =? 1)%Z then
    if (oup_inc <? 0)%Z then Raise RuntimeError
    else if (oup_inc =? 0)%Z then Raise ValueError
    else Ok (InvertedResidual.mk benchmodel stride None
          [ Conv2d oup_inc oup_inc 1 1 0 1 1 false (w 0%nat);
            BatchNorm2d oup_inc (w 1%nat);
            ReLU true;
            Conv2d oup_inc oup_inc 3 stride 1 1 oup_inc false (w 2%nat);
            BatchNorm2d oup_inc (w 3%nat);
            Conv2d oup_inc oup_inc 1 1 0 1 1 false (w 4%nat);
            BatchNorm2d oup_inc (w 5%nat);
            ReLU true ])
  else
    if (inp <=? 0)%Z then Raise ValueError
    else if (oup_inc <? 0)%Z then Raise RuntimeError
    else if (oup_inc =? 0)%Z then Raise ValueError
    else Ok (InvertedResidual.mk benchmodel stride
          (Some [ Conv2d inp inp 3 stride 1 1 inp false (w 0%nat);
                  BatchNorm2d inp (w 1%nat);
                  Conv2d inp oup_inc 1 1 0 1 1 false (w 2%nat);
                  BatchNorm2d oup_inc (w 3%nat);
                  ReLU true ])
          [ Conv2d inp oup_inc 1 1 0 1 1 false (w 4%nat);
            BatchNorm2d oup_inc (w 5%nat);
            ReLU true;
            Conv2d oup_inc oup_inc 3 stride 1 1 oup_inc false (w 6%nat);
            BatchNorm2d oup_inc (w 7%nat);
            Conv2d oup_inc oup_inc 1 1 0 1 1 false (w 8%nat);
            BatchNorm2d oup_inc (w 9%nat);
            ReLU true ]).
Proof.
  unfold InvertedResidual.init.
  destruct (negb _); [reflexivity|].
  cbv zeta. set (c := (oup / 2)%Z).
  destruct (benchmodel =? 1)%Z.
  - destruct (Z.ltb_spec c 0) as [Hn|Hn].
    { unfold new_Sequential. cbn [mapM].
      rewrite (new_Conv2d_negative c c 1 1 0 1 false (w 0%nat) Hn).
      reflexivity. }
    destruct (Z.eqb_spec c 0) as [Hz|Hz].
    { unfold new_Sequential. cbn [mapM].
      rewrite (new_Conv2d_ok c c 1 1 0 1 1 false (w 0%nat))
        by (rewrite ?Z.mod_1_r; lia).
      rewrite (new_BatchNorm2d_ok c (w 1%nat)) by lia.
      rewrite (new_Conv2d_groups c c 3 stride 1 1 c false (w 2%nat)) by lia.
      reflexivity. }
    unfold new_Sequential. cbn [mapM].
    rewrite !new_Conv2d_ok by (rewrite ?Z.mod_1_r, ?Z.mod_same; lia).
    rewrite !new_BatchNorm2d_ok by lia.
    reflexivity.
  - destruct (Z.leb_spec inp 0) as [Hi|Hi].
    { unfold new_Sequential. cbn [mapM].
      rewrite (new_Conv2d_groups inp inp 3 stride 1 1 inp false (w 0%nat)) by lia.
      reflexivity. }
    destruct (Z.ltb_spec c 0) as [Hn|Hn].
    { unfold new_Sequential. cbn [mapM].
      rewrite (new_Conv2d_ok inp inp 3 stride 1 1 inp false (w 0%nat))
        by (rewrite ?Z.mod_same; lia).
      rewrite (new_BatchNorm2d_ok inp (w 1%nat)) by lia.
      rewrite (new_Conv2d_negative inp c 1 1 0 1 false (w 2%nat) Hn).
      reflexivity. }
    destruct (Z.eqb_spec c 0) as [Hz|Hz].
    { unfold new_Sequential. cbn [mapM].
      rewrite (new_Conv2d_ok inp inp 3 stride 1 1 inp false (w 0%nat))
        by (rewrite ?Z.mod_same; lia).
      rewrite (new_BatchNorm2d_ok inp (w 1%nat)) by lia.
      rewrite (new_Conv2d_ok inp c 1 1 0 1 1 false (w 2%nat))
        by (rewrite ?Z.mod_1_r; lia).
      rewrite (new_BatchNorm2d_ok c (w 3%nat)) by lia.
      cbn [bind mapM].
      rewrite (new_Conv2d_ok inp c 1 1 0 1 1 false (w 4%nat))
        by (rewrite ?Z.mod_1_r; lia).
      rewrite (new_BatchNorm2d_ok c (w 5%nat)) by lia.
      rewrite (new_Conv2d_groups c c 3 stride 1 1 c false (w 6%nat)) by lia.
      reflexivity. }
    unfold new_Sequential. cbn [mapM].
    rewrite !new_Conv2d_ok by (rewrite ?Z.mod_1_r, ?Z.mod_same; lia).
    rewrite !new_BatchNorm2d_ok by lia.
    reflexivity.
Qed.

Lemma half_sign (oup : Z) :
  ((oup / 2 < 0 <-> oup < 0) /\ (oup / 2 = 0 <-> 0 <= oup < 2)
   /\ (0 < oup / 2 <-> 2 <= oup))%Z.
Proof.
  pose proof (Z.div_mod oup 2 ltac:(lia)).
  pose proof (Z.mod_pos_bound oup 2 ltac:(lia)). lia.
Qed.

Lemma init_ok_inv (w : nat -> Wt) (inp oup stride benchmodel : Z)
    (blk : InvertedResidual.t Wt) :
  InvertedResidual.init w inp oup stride benchmodel = Ok blk ->
  (stride = 1 \/ stride = 2)%Z
  /\ InvertedResidual.benchmodel blk = benchmodel
  /\ InvertedResidual.stride blk = stride
  /\ (InvertedResidual.banch1 blk = None <-> benchmodel = 1%Z)
  /\ length (InvertedResidual.banch2 blk) = 8.
Proof.
  rewrite init_cases. cbv zeta.
  destruct (Z.eqb_spec stride 1) as [Hs1|Hs1];
    destruct (Z.eqb_spec stride 2) as [Hs2|Hs2]; cbn [orb negb];
    try discriminate.
  all: destruct (Z.eqb_spec benchmodel 1) as [Hb|Hb].
  all: repeat match goal with
       | |- (if ?c then _ else _) = _ -> _ => destruct c; try discriminate
       end.
  all: intros E; injection E as <-; simpl.
  all: repeat split; auto; try congruence; try discriminate.
Qed.

Lemma init_ok_iff (w : nat -> Wt) (inp oup stride benchmodel : Z) :
  (exists blk, InvertedResidual.init w inp oup stride benchmodel = Ok blk)
  <-> (stride = 1 \/ stride = 2)%Z /\ (2 <= oup)%Z
      /\ (benchmodel = 1 \/ 1 <= inp)%Z.
Proof.
  rewrite init_cases. cbv zeta.
  destruct (half_sign oup) as (Hn & Hz & Hp).
  destruct (Z.eqb_spec stride 1) as [Hs1|Hs1];
    destruct (Z.eqb_spec stride 2) as [Hs2|Hs2]; cbn [orb negb].
  4: { split; [intros [blk E]; discriminate | lia]. }
  all: destruct (Z.eqb_spec benchmodel 1) as [Hb|Hb].
  all: try destruct (Z.leb_spec inp 0) as [Hi|Hi].
  all: destruct (Z.ltb_spec (oup / 2) 0) as [Hc|Hc].
  all: try destruct (Z.eqb_spec (oup / 2) 0) as [Hc0|Hc0].
  all: split; [intros [blk E]; try discriminate; lia | intros Hyp].
  all: try (exfalso; lia).
  all: eexists; reflexivity.
Qed.
End Constructors.

(** ** [InvertedResidual]: failure modes *)

(** C8 (the code departs from it): with [stride = 1] the constructor
    accepts [benchmodel = 3], and [forward] of the block it returns raises
    [UnboundLocalError] on every input: a failure that is not the stride
    assertion. *)
Theorem forward_benchmodel_3_raises {P Wt : Type} `{Torch P Wt}
    (w : nat -> Wt) (x : tensor P) :
  exists blk,
    InvertedResidual.init w 3 12 1 3 = Ok blk
    /\ InvertedResidual.forward blk x = Raise UnboundLocalError.
Proof.
  eexists. split; reflexivity.
Qed.

(** C10 (as stated, refuted): with [stride = 1] and [benchmodel = 3] the
    constructor raises [ValueError] when [inp] is 0 and when [oup] is 1:
    a depthwise [nn.Conv2d] is then given [groups = 0]. *)
Lemma init_rejects_channel_counts :
  InvertedResidual.init (fun _ => tt) 0 12 1 3 = Raise ValueError
  /\ InvertedResidual.init (fun _ => tt) 3 1 1 3 = Raise ValueError.
Proof.
  split; reflexivity.
Qed.

(** C10 (amended): for every [benchmodel] other than 1 and 2, with
    [stride] 1 or 2 and channel counts the layers accept ([inp >= 1],
    [oup >= 2]), the constructor returns a block; and [forward] of any
    block the constructor returns raises on every input, [out] being
    unbound. *)
Theorem forward_unbound_out {P Wt : Type} `{Torch P Wt}
    (w : nat -> Wt) (inp oup stride benchmodel : Z) :
  (stride = 1 \/ stride = 2)%Z ->
  benchmodel <> 1%Z -> benchmodel <> 2%Z ->
  ((1 <= inp)%Z -> (2 <= oup)%Z ->
   exists blk, InvertedResidual.init w inp oup stride benchmodel = Ok blk)
  /\ (forall blk,
        InvertedResidual.init w inp oup stride benchmodel = Ok blk ->
        forall x : tensor P,
          InvertedResidual.forward blk x = Raise UnboundLocalError).
Proof.
  intros Hs H1 H2. split.
  - intros Hi Ho. apply init_ok_iff. auto.
  - intros blk Hinit x.
    destruct (init_ok_inv w inp oup stride benchmodel blk Hinit)
      as (_ & Hbm & _).
    unfold InvertedResidual.forward. rewrite Hbm.
    destruct (Z.eqb_spec 1 benchmodel) as [E|_]; [congruence|].
    destruct (Z.eqb_spec 2 benchmodel) as [E|_]; [congruence|].
    reflexivity.
Qed.

Lemma forward_unbound_out_witness :
  ((1 <= 12)%Z -> (2 <= 12)%Z ->
   exists blk, InvertedResidual.init (fun _ => tt) 12 12 2 0 = Ok blk)
  /\ (forall blk,
        InvertedResidual.init (fun _ => tt) 12 12 2 0 = Ok blk ->
        forall x : tensor unit,
          InvertedResidual.forward (H := unit_torch) blk x
          = Raise UnboundLocalError).
Proof.
  apply (forward_unbound_out (H := unit_torch) (fun _ => tt) 12 12 2 0).
  - right; reflexivity.
  - discriminate.
  - discriminate.
Defined.

(** ** [RFDet.process] *)

Section Process.
Context {Wt : Type} {H : ImageUtils}.
Implicit Types (self : RFDet.t Wt) (x : smap).

Lemma process_inv self x a b c :
  RFDet.process self x = Ok (a, b, c) ->
  nms_masked self x = Ok c /\ b = topk_map c (RFDet.TOPK self).
Proof.
  unfold RFDet.process, nms_masked.
  destruct (zip3d _ (filter_border x) _) as [y|e]; simpl; [|discriminate].
  destruct (zip3d _ (topk_map y _) y) as [z|e]; simpl; [|discriminate].
  intros E. injection E as _ <- <-. split; reflexivity.
Qed.
End Process.

(** C1 (amended): whenever [process] returns, its third value is the score
    map after the border filter and the NMS mask, before the top-k mask
    and the Gaussian smoothing. *)
Theorem process_third_is_nms_masked {Wt : Type} {H : ImageUtils}
    (self : RFDet.t Wt) (x : smap) (a : smap) (b : bmap) (c : smap) :
  RFDet.process self x = Ok (a, b, c) ->
  nms_masked self x = Ok c.
Proof.
  intros E. apply (process_inv self x a b c E).
Qed.

(** C6: whenever [process] returns, [topk_map] of its third value, with
    the same [TOPK], is the mask it returned second. *)
Theorem process_topk_mask_reproduced {Wt : Type} {H : ImageUtils}
    (self : RFDet.t Wt) (x : smap) (a : smap) (b : bmap) (c : smap) :
  RFDet.process self x = Ok (a, b, c) ->
  topk_map c (RFDet.TOPK self) = b.
Proof.
  intros E. symmetry. apply (process_inv self x a b c E).
Qed.

(** C1 (as stated, refuted): with [TOPK = 1] and two peaks that survive
    the NMS, the third value of [process] keeps both peaks, whereas the
    top-k-masked score map keeps one. *)
Lemma process_third_not_topk_masked :
  exists d a b c kept,
    demo_detector = Ok d
    /\ RFDet.process (H := demo_utils) d demo_scores = Ok (a, b, c)
    /\ topk_masked (H := demo_utils) d demo_scores = Ok kept
    /\ c <> kept.
Proof.
  eexists _, _, _, _, _.
  split; [reflexivity|].
  split; [vm_compute; reflexivity|].
  split; [vm_compute; reflexivity|].
  intros E.
  apply (f_equal (fun m : smap =>
           PrimFloat.eqb (nth 3 (nth 3 (nth 0 m []) []) 0%float) 0.25)) in E.
  vm_compute in E. discriminate E.
Qed.

Lemma process_third_is_nms_masked_witness :
  exists d a b c,
    demo_detector = Ok d
    /\ RFDet.process (H := demo_utils) d demo_scores = Ok (a, b, c)
    /\ nms_masked (H := demo_utils) d demo_scores = Ok c.
Proof.
  eexists _, _, _, _.
  split; [reflexivity|].
  split; [vm_compute; reflexivity|].
  eapply (process_third_is_nms_masked (H := demo_utils)).
  vm_compute; reflexivity.
Defined.

Lemma process_topk_mask_reproduced_witness :
  exists d a b c,
    demo_detector = Ok d
    /\ RFDet.process (H := demo_utils) d demo_scores = Ok (a, b, c)
    /\ topk_map (ImageUtils := demo_utils) c (RFDet.TOPK d) = b.
Proof.
  eexists _, _, _, _.
  split; [reflexivity|].
  split; [vm_compute; reflexivity|].
  eapply (process_topk_mask_reproduced (H := demo_utils) _ demo_scores).
  vm_compute; reflexivity.
Defined.

(** ** Nested-list lemmas *)

Lemma zip_exact_Forall {A B C : Type} (f : A -> B -> result C) (Q : C -> Prop)
    (a : list A) (b : list B) (l : list C) :
  (forall x y z, f x y = Ok z -> Q z) ->
  zip_exact f a b = Ok l -> Forall Q l.
Proof.
  intros Hf. revert b l.
  induction a as [|x a IH]; intros [|y b] l; simpl; try discriminate.
  - intros E; injection E as <-. constructor.
  - destruct (f x y) as [z|] eqn:Ez; simpl; [|discriminate].
    destruct (zip_exact f a b) as [zs|] eqn:Ezs; simpl; [|discriminate].
    intros E; injection E as <-. constructor; eauto.
Qed.

Lemma zip3d_Forall3 {A B C : Type} (f : A -> B -> C) (Q : C -> Prop) a b l :
  (forall x y, Q (f x y)) -> zip3d f a b = Ok l -> Forall3 Q l.
Proof.
  intros Hf. unfold zip3d, Forall3.
  apply zip_exact_Forall. intros r1 r2 r.
  apply zip_exact_Forall. intros s1 s2 s.
  apply zip_exact_Forall. intros x y z E. injection E as <-. apply Hf.
Qed.

Lemma combine_seq_Forall {A B : Type} (f : nat -> A -> B) (Q : B -> Prop)
    (l : list A) (s : nat) :
  (forall i a, nth_error l i = Some a -> Q (f (s + i) a)) ->
  Forall Q (map (fun ia => f (fst ia) (snd ia)) (combine (seq s (length l)) l)).
Proof.
  revert s. induction l as [|a l IH]; intros s Hl; simpl; constructor.
  - specialize (Hl 0 a eq_refl). rewrite Nat.add_0_r in Hl. exact Hl.
  - apply IH. intros i b Hi.
    replace (S s + i) with (s + S i) by lia. apply Hl. exact Hi.
Qed.

Lemma mapi_Forall {A B : Type} (f : nat -> A -> B) (Q : B -> Prop) (l : list A) :
  (forall i a, nth_error l i = Some a -> Q (f i a)) -> Forall Q (mapi f l).
Proof.
  intros Hl. unfold mapi. apply combine_seq_Forall. exact Hl.
Qed.

Lemma map3_Forall3 {A B : Type} (f : A -> B) (Q : B -> Prop) (Q' : A -> Prop) x :
  (forall a, Q' a -> Q (f a)) -> Forall3 Q' x -> Forall3 Q (map3 f x).
Proof.
  intros Hf. unfold Forall3, map3. intros Hx.
  apply Forall_map. eapply Forall_impl; [|exact Hx]. intros img Himg.
  apply Forall_map. eapply Forall_impl; [|exact Himg]. intros row Hrow.
  apply Forall_map. eapply Forall_impl; [|exact Hrow]. exact Hf.
Qed.

(** ** Soft-max facts *)

Section SoftMax.
Import image_utils.
Local Open Scope R_scope.

Lemma sum_R_nonneg (l : list R) : Forall (fun v => 0 <= v) l -> 0 <= sum_R l.
Proof.
  induction 1 as [|v l Hv _ IH]; simpl; [apply Rle_refl | lra].
Qed.

Lemma sum_R_ge_term {A : Type} (f : A -> R) (l : list A) (a : A) :
  (forall x, 0 <= f x) -> In a l -> f a <= sum_R (map f l).
Proof.
  intros Hf. induction l as [|x l IH]; simpl; [contradiction|].
  intros [-> | Ha].
  - assert (0 <= sum_R (map f l))
      by (apply sum_R_nonneg, Forall_map, Forall_forall; intros; apply Hf).
    lra.
  - specialize (IH Ha). specialize (Hf x). lra.
Qed.

Lemma pixel_mass_nonneg cs px : 0 <= pixel_mass cs px.
Proof.
  apply sum_R_nonneg, Forall_map, Forall_forall.
  intros v _. left. apply exp_pos.
Qed.

Lemma pixel_mass_pos cs px : px <> [] -> 0 < pixel_mass cs px.
Proof.
  destruct px as [|v px]; [congruence|]. intros _.
  unfold pixel_mass; simpl.
  pose proof (exp_pos (cs * v)). pose proof (pixel_mass_nonneg cs px).
  unfold pixel_mass in *. lra.
Qed.

Lemma window_term_nonneg cs img r i j di dj :
  0 <= (if (r <=? i + di)%nat && (r <=? j + dj)%nat then
          match nth_error img (i + di - r) with
          | Some row =>
              match nth_error row (j + dj - r) with
              | Some px => pixel_mass cs px
              | None => 0
              end
          | None => 0
          end
        else 0).
Proof.
  destruct (_ && _); [|apply Rle_refl].
  destruct (nth_error img _) as [row|]; [|apply Rle_refl].
  destruct (nth_error row _) as [px|]; [|apply Rle_refl].
  apply pixel_mass_nonneg.
Qed.

(** The neighbourhood mass of a pixel is at least the pixel's own mass. *)
Lemma window_mass_ge_centre cs img ksize i j row px :
  (1 <= ksize)%nat ->
  nth_error img i = Some row -> nth_error row j = Some px ->
  pixel_mass cs px <= window_mass cs img ksize i j.
Proof.
  intros Hk Hi Hj. unfold window_mass.
  set (r := (ksize / 2)%nat).
  assert (Hr : In r (seq 0 ksize)).
  { apply in_seq. split; [lia|]. simpl.
    apply Nat.Div0.div_lt_upper_bound. lia. }
  match goal with |- _ <= sum_R (map ?F _) => set (inner := F) end.
  apply Rle_trans with (inner r).
  - unfold inner.
    match goal with |- _ <= sum_R (map ?F _) => set (term := F) end.
    apply Rle_trans with (term r).
    + unfold term.
      replace ((r <=? i + r)%nat && (r <=? j + r)%nat) with true
        by (symmetry; apply andb_true_intro; split; apply Nat.leb_le; lia).
      replace (i + r - r)%nat with i by lia.
      replace (j + r - r)%nat with j by lia.
      rewrite Hi, Hj. apply Rle_refl.
    + apply (sum_R_ge_term term); [|exact Hr].
      intros dj. apply window_term_nonneg.
  - apply (sum_R_ge_term inner); [|exact Hr].
    intros di. unfold inner. apply sum_R_nonneg, Forall_map, Forall_forall.
    intros dj _. apply window_term_nonneg.
Qed.

(** The soft-NMS keeps the shape of every pixel and yields positive
    values. *)
Lemma soft_nms_3d_shape (n : nat) v ksize cs :
  Forall3 (fun px => length px = n) v ->
  Forall3 (fun px => length px = n) (soft_nms_3d v ksize cs).
Proof.
  unfold Forall3, soft_nms_3d. intros Hv.
  apply Forall_map. eapply Forall_impl; [|exact Hv]. intros img Himg.
  apply mapi_Forall. intros i row Hi.
  apply mapi_Forall. intros j px Hj.
  rewrite length_map.
  rewrite Forall_forall in Himg.
  specialize (Himg row (nth_error_In _ _ Hi)).
  rewrite Forall_forall in Himg. apply Himg. exact (nth_error_In _ _ Hj).
Qed.

Lemma soft_nms_3d_pos v ksize cs :
  (1 <= ksize)%nat -> Forall4 (fun p => 0 < p) (soft_nms_3d v ksize cs).
Proof.
  intros Hk. unfold Forall4, Forall3, soft_nms_3d.
  apply Forall_map, Forall_forall. intros img _.
  apply mapi_Forall. intros i row Hi.
  apply mapi_Forall. intros j px Hj.
  apply Forall_map, Forall_forall. intros p Hp.
  apply Rdiv_lt_0_compat; [apply exp_pos|].
  apply Rlt_le_trans with (pixel_mass cs px).
  - apply pixel_mass_pos. intros ->. contradiction.
  - apply (window_mass_ge_centre cs img ksize i j row px Hk Hi Hj).
Qed.
End SoftMax.

Section SoftArgmax.
Import image_utils.
Local Open Scope R_scope.

Lemma weighted_terms_nonneg (M cs : R) (px qx : list R) :
  0 < M -> Forall (fun v => 0 <= v) px ->
  0 <= dot px (map (fun v => exp (cs * v) / M) qx).
Proof.
  intros HM Hpx. unfold dot. apply sum_R_nonneg, Forall_map.
  revert qx. induction Hpx as [|v px Hv _ IH]; intros [|q qx]; simpl;
    try constructor; [|apply IH].
  simpl. apply Rmult_le_pos; [exact Hv|].
  left. apply Rdiv_lt_0_compat; [apply exp_pos | exact HM].
Qed.

(** The fused score of a pixel with non-negative scale probabilities. *)
Lemma fused_score_nonneg cs px :
  Forall (fun v => 0 <= v) px -> 0 <= dot px (softmax cs px).
Proof.
  intros Hpx. destruct px as [|v px].
  - unfold dot; simpl. apply Rle_refl.
  - apply weighted_terms_nonneg; [|exact Hpx].
    apply pixel_mass_pos. discriminate.
Qed.

(** The fused scale of a three-bin pixel is a convex combination of the
    anchors 12, 32 and 64. *)
Lemma fused_scale_in_hull cs px :
  length px = 3%nat -> 12 <= dot [12; 32; 64] (softmax cs px) <= 64.
Proof.
  destruct px as [|a [|b [|c [|d px]]]]; try discriminate. intros _.
  unfold dot, softmax, pixel_mass; simpl.
  pose proof (exp_pos (cs * a)) as Ha.
  pose proof (exp_pos (cs * b)) as Hb.
  pose proof (exp_pos (cs * c)) as Hc.
  set (ea := exp (cs * a)) in *. set (eb := exp (cs * b)) in *.
  set (ec := exp (cs * c)) in *.
  assert (HM : 0 < ea + (eb + (ec + 0))) by lra.
  split.
  - replace (12 * (ea / (ea + (eb + (ec + 0))))
             + (32 * (eb / (ea + (eb + (ec + 0))))
                + (64 * (ec / (ea + (eb + (ec + 0)))) + 0)))
      with (12 + (20 * eb + 52 * ec) / (ea + (eb + (ec + 0))))
      by (field; lra).
    assert (0 <= (20 * eb + 52 * ec) / (ea + (eb + (ec + 0))))
      by (apply Rle_mult_inv_pos; lra).
    lra.
  - replace (12 * (ea / (ea + (eb + (ec + 0))))
             + (32 * (eb / (ea + (eb + (ec + 0))))
                + (64 * (ec / (ea + (eb + (ec + 0)))) + 0)))
      with (64 - (52 * ea + 32 * eb) / (ea + (eb + (ec + 0))))
      by (field; lra).
    assert (0 <= (52 * ea + 32 * eb) / (ea + (eb + (ec + 0))))
      by (apply Rle_mult_inv_pos; lra).
    lra.
Qed.
End SoftArgmax.

(** ** [RFDet.forward] *)

Section Forward.
Context {P Wt : Type} {H : Torch P Wt}.
Implicit Types (self : RFDet.t Wt) (fm : tensor P).

Lemma score_maps_shared self hw fm :
  RFDet.score_maps self hw fm
  = shared_head_scores (RFDet.conv_1_1 self) (RFDet.insnorm_1_1 self) hw fm.
Proof.
  unfold RFDet.score_maps, shared_head_scores, score_head.
  destruct (upsample_scale 0.75%R fm) as [f2|]; simpl; [|reflexivity].
  destruct (upsample_scale 0.5%R fm) as [f3|]; simpl; [|reflexivity].
  destruct (conv_single _ fm) as [c1|]; simpl; [|reflexivity].
  destruct (norm_single _ c1) as [n1|]; simpl; [|reflexivity].
  destruct (conv_single _ f2) as [c2|]; simpl; [|reflexivity].
  destruct (norm_single _ c2) as [n2|]; simpl; [|reflexivity].
  destruct (conv_single _ f3) as [c3|]; simpl; [|reflexivity].
  destruct (norm_single _ c3) as [n3|]; simpl; reflexivity.
Qed.

Lemma stack3_shape a b c v :
  RFDet.stack3 a b c = Ok v -> Forall3 (fun px => length px = 3) v.
Proof.
  unfold RFDet.stack3.
  destruct (zip3d _ a b) as [ab|]; simpl; [|discriminate].
  apply zip3d_Forall3. reflexivity.
Qed.

Lemma score_maps_shape self hw fm v :
  RFDet.score_maps self hw fm = Ok v -> Forall3 (fun px => length px = 3) v.
Proof.
  unfold RFDet.score_maps.
  destruct (upsample_scale 0.75%R fm) as [f2|]; simpl; [|discriminate].
  destruct (upsample_scale 0.5%R fm) as [f3|]; simpl; [|discriminate].
  destruct (conv_single _ fm) as [c1|]; simpl; [|discriminate].
  destruct (norm_single _ c1) as [n1|]; simpl; [|discriminate].
  destruct (conv_single _ f2) as [c2|]; simpl; [|discriminate].
  destruct (norm_single _ c2) as [n2|]; simpl; [|discriminate].
  destruct (conv_single _ f3) as [c3|]; simpl; [|discriminate].
  destruct (norm_single _ c3) as [n3|]; simpl; [|discriminate].
  destruct (upsample_size hw (leaky_relu n2)) as [u2|]; simpl; [|discriminate].
  destruct (upsample_size hw (leaky_relu n3)) as [u3|]; simpl; [|discriminate].
  apply stack3_shape.
Qed.

(** What [forward] returns, in terms of its two halves. *)
Lemma forward_inv self photos score scale ori :
  RFDet.forward self photos = Ok (score, scale, ori) ->
  exists fm v,
    RFDet.run_features (RFDet.features self) photos = Ok fm
    /\ RFDet.score_maps self (shape_hw photos) fm = Ok v
    /\ score = map3 (fun px => [image_utils.dot px
                                  (image_utils.softmax (RFDet.score_com_strength self) px)])
                 (image_utils.soft_nms_3d v 15 10%R)
    /\ scale = map3 (fun px => [image_utils.dot (RFDet.scale_list self)
                                  (image_utils.softmax (RFDet.scale_com_strength self) px)])
                 (image_utils.soft_nms_3d v 15 10%R).
Proof.
  unfold RFDet.forward.
  destruct (RFDet.run_features _ photos) as [fm|] eqn:Ef; simpl; [|discriminate].
  destruct (RFDet.score_maps self _ fm) as [v|] eqn:Ev; simpl; [|discriminate].
  destruct (apply_layer _ fm) as [o|]; simpl; [|discriminate].
  intros E. injection E as <- <- _.
  exists fm, v. repeat split; assumption || reflexivity.
Qed.
End Forward.

(** C3: for a detector built by the constructor, every value of the scale
    map [forward] returns lies in [12, 64], the hull of the scale list. *)
Theorem scale_map_in_hull {P Wt : Type} {H : Torch P Wt}
    (w : nat -> Wt) (score_com scale_com : R) (nms_thresh : float)
    (nms_ksize topk gauss_ksize : nat) (gauss_sigma : float)
    (ksize padding dilation : Z) (scales : list R)
    (self : RFDet.t Wt) (photos : tensor P) (score scale ori : volume) :
  RFDet.init w score_com scale_com nms_thresh nms_ksize topk gauss_ksize
    gauss_sigma ksize padding dilation scales = Ok self ->
  RFDet.forward self photos = Ok (score, scale, ori) ->
  Forall4 (fun v => (12 <= v <= 64)%R) scale.
Proof.
  intros Hinit Hfw.
  assert (Hs : RFDet.scale_list self = [12; 32; 64]%R).
  { unfold RFDet.init in Hinit.
    repeat match type of Hinit with
    | bind ?r _ = Ok _ => destruct r; cbn [bind] in Hinit; [|discriminate]
    end.
    injection Hinit as <-. reflexivity. }
  destruct (forward_inv self photos score scale ori Hfw)
    as (fm & v & _ & Hv & _ & ->).
  rewrite Hs.
  apply (map3_Forall3 _ (Forall (fun v => (12 <= v <= 64)%R))
           (fun px => length px = 3)).
  - intros px Hpx. constructor; [|constructor].
    apply fused_scale_in_hull, Hpx.
  - apply soft_nms_3d_shape. exact (score_maps_shape self _ fm v Hv).
Qed.

(** C4: every value of the score map [forward] returns is non-negative. *)
Theorem score_map_nonneg {P Wt : Type} {H : Torch P Wt}
    (self : RFDet.t Wt) (photos : tensor P) (score scale ori : volume) :
  RFDet.forward self photos = Ok (score, scale, ori) ->
  Forall4 (fun v => (0 <= v)%R) score.
Proof.
  intros Hfw.
  destruct (forward_inv self photos score scale ori Hfw)
    as (fm & v & _ & _ & -> & _).
  apply (map3_Forall3 _ (Forall (fun v => (0 <= v)%R))
           (Forall (fun p => (0 < p)%R))).
  - intros px Hpx. constructor; [|constructor].
    apply fused_score_nonneg.
    eapply Forall_impl; [|exact Hpx]. intros p Hp. left. exact Hp.
  - apply soft_nms_3d_pos. lia.
Qed.

(** C5: in [forward] the three per-scale score maps come from one head,
    the layers [conv_1_1] and [insnorm_1_1] of the detector, applied to
    the feature map and to its 0.75x and 0.5x resampled copies. *)
Theorem forward_shares_score_head {P Wt : Type} {H : Torch P Wt}
    (self : RFDet.t Wt) (photos : tensor P) :
  RFDet.forward self photos
  = (fm <- RFDet.run_features (RFDet.features self) photos ;;
     v <- shared_head_scores (RFDet.conv_1_1 self) (RFDet.insnorm_1_1 self)
            (shape_hw photos) fm ;;
     fuse self fm v).
Proof.
  unfold RFDet.forward, fuse.
  destruct (RFDet.run_features _ photos) as [fm|]; simpl; [|reflexivity].
  rewrite score_maps_shared. reflexivity.
Qed.

Lemma scale_map_in_hull_witness :
  exists self score scale ori,
    demo_detector = Ok self
    /\ RFDet.forward (H := unit_torch) self [[tt]] = Ok (score, scale, ori)
    /\ Forall4 (fun v => (12 <= v <= 64)%R) scale.
Proof.
  eexists _, _, _, _.
  split; [reflexivity|].
  split; [reflexivity|].
  eapply (scale_map_in_hull (H := unit_torch) (fun _ => tt) 3 3 0 3 1 3 0.5 3 1 1 []
            _ [[tt]]).
  - reflexivity.
  - reflexivity.
Defined.

Lemma score_map_nonneg_witness :
  exists self score scale ori,
    demo_detector = Ok self
    /\ RFDet.forward (H := unit_torch) self [[tt]] = Ok (score, scale, ori)
    /\ Forall4 (fun v => (0 <= v)%R) score.
Proof.
  eexists _, _, _, _.
  split; [reflexivity|].
  match goal with
  | |- RFDet.forward ?s ?p = _ /\ _ =>
      split; [reflexivity
             | eapply (score_map_nonneg (H := unit_torch) s p); reflexivity]
  end.
Defined.

(** ** Rounding facts *)

Section Shifts.
Local Open Scope Z_scope.

Lemma shr_1_m (mrs : shr_record) :
  0 <= shr_m mrs -> shr_m (shr_1 mrs) = shr_m mrs / 2.
Proof.
  destruct mrs as [m r s]; simpl. intros Hm.
  destruct m as [|[p|p|]|p]; simpl; try reflexivity; try lia.
  - rewrite Pos2Z.inj_xI. apply Z.div_unique with 1; lia.
  - rewrite Pos2Z.inj_xO. apply Z.div_unique with 0; lia.
Qed.

Lemma iter_shr_1_m (q : positive) (mrs : shr_record) :
  0 <= shr_m mrs ->
  shr_m (SpecFloat.iter_pos shr_1 q mrs) = shr_m mrs / 2 ^ Z.pos q.
Proof.
  revert mrs. induction q as [q IH|q IH|]; intros mrs Hm; simpl SpecFloat.iter_pos.
  - assert (H1 : 0 <= shr_m (shr_1 mrs))
      by (rewrite shr_1_m by exact Hm; apply Z.div_pos; lia).
    assert (H2 : 0 <= shr_m (SpecFloat.iter_pos shr_1 q (shr_1 mrs)))
      by (rewrite IH by exact H1; apply Z.div_pos; lia).
    rewrite IH by exact H2. rewrite IH by exact H1. rewrite shr_1_m by exact Hm.
    rewrite !Z.div_div by lia.
    f_equal. change (Z.pos q~1) with (2 * Z.pos q + 1).
    replace (2 * Z.pos q + 1) with (1 + Z.pos q + Z.pos q) by lia.
    rewrite !Z.pow_add_r by lia. lia.
  - assert (H1 : 0 <= shr_m (SpecFloat.iter_pos shr_1 q mrs))
      by (rewrite IH by exact Hm; apply Z.div_pos; lia).
    rewrite IH by exact H1. rewrite IH by exact Hm.
    rewrite Z.div_div by lia.
    f_equal. change (Z.pos q~0) with (2 * Z.pos q).
    replace (2 * Z.pos q) with (Z.pos q + Z.pos q) by lia.
    rewrite Z.pow_add_r by lia. reflexivity.
  - rewrite shr_1_m by exact Hm. reflexivity.
Qed.

Lemma digits2_pos_lower (p : positive) :
  2 ^ (Z.pos (digits2_pos p) - 1) <= Z.pos p.
Proof.
  assert (Hs : forall q, 2 ^ (Z.pos (Pos.succ q) - 1) = 2 * 2 ^ (Z.pos q - 1)).
  { intros q. rewrite Pos2Z.inj_succ.
    replace (Z.succ (Z.pos q) - 1) with (1 + (Z.pos q - 1)) by lia.
    rewrite Z.pow_add_r by lia. reflexivity. }
  induction p as [p IH|p IH|]; simpl digits2_pos.
  - rewrite Hs. change (Z.pos p~1) with (2 * Z.pos p + 1). lia.
  - rewrite Hs. change (Z.pos p~0) with (2 * Z.pos p). lia.
  - simpl. lia.
Qed.

Lemma shr_record_of_loc_m (m : Z) (l : location) :
  shr_m (shr_record_of_loc m l) = m.
Proof. destruct l as [|[]]; reflexivity. Qed.

Lemma round_nearest_even_ge (m : Z) (l : location) :
  m <= round_nearest_even m l.
Proof.
  unfold round_nearest_even. destruct l as [|[]]; try lia.
  destruct (Z.even m); lia.
Qed.
End Shifts.

(** ** Rounding to a binary format of precision [prc] and exponent bound
    [emx] *)

Section Rounding.
Local Open Scope Z_scope.
Variables prc emx : Z.
Hypothesis prc_pos : 0 < prc.
Hypothesis prc_emx : prc < emx.

(** The exponent after a shift to the format exponent is not below
    [emin]. *)
Lemma shr_fexp_exponent (m e : Z) (l : location) :
  SpecFloat.emin prc emx <= snd (shr_fexp prc emx m e l).
Proof.
  unfold shr_fexp, shr, fexp.
  destruct (Z.max (Zdigits2 m + e - prc) (SpecFloat.emin prc emx) - e)
    as [|q|q] eqn:En; simpl; lia.
Qed.

Lemma shr_fexp_nonneg (m e : Z) (l : location) :
  0 <= m -> 0 <= shr_m (fst (shr_fexp prc emx m e l)).
Proof.
  intros Hm. unfold shr_fexp, shr.
  destruct (fexp prc emx (Zdigits2 m + e) - e) as [|q|q]; simpl;
    rewrite ?iter_shr_1_m by (rewrite shr_record_of_loc_m; exact Hm);
    rewrite shr_record_of_loc_m; try exact Hm.
  apply Z.div_pos; [exact Hm | apply Z.pow_pos_nonneg; lia].
Qed.

(** Shifting a positive mantissa to its format exponent keeps it positive
    when the value is not below the least positive one of the format. *)
Lemma shr_fexp_pos_digits (m e : Z) (l : location) :
  0 < m -> SpecFloat.emin prc emx < Zdigits2 m + e ->
  0 < shr_m (fst (shr_fexp prc emx m e l)).
Proof.
  intros Hm He. unfold shr_fexp, shr.
  destruct m as [|p|p]; try lia. simpl Zdigits2 in *.
  pose proof (digits2_pos_lower p) as Hd.
  set (d := Z.pos (digits2_pos p)) in *.
  unfold fexp.
  destruct (Z.max (d + e - prc) (SpecFloat.emin prc emx) - e) as [|q|q] eqn:En;
    simpl.
  - rewrite shr_record_of_loc_m. lia.
  - rewrite iter_shr_1_m by (rewrite shr_record_of_loc_m; lia).
    rewrite shr_record_of_loc_m.
    assert (Hq : Z.pos q <= d - 1) by lia.
    apply Z.div_str_pos. split; [apply Z.pow_pos_nonneg; lia|].
    apply Z.le_trans with (2 ^ (d - 1)); [|exact Hd].
    apply Z.pow_le_mono_r; lia.
  - rewrite shr_record_of_loc_m. lia.
Qed.

Lemma shr_fexp_pos (m e : Z) (l : location) :
  0 < m -> SpecFloat.emin prc emx <= e ->
  0 < shr_m (fst (shr_fexp prc emx m e l))
  /\ SpecFloat.emin prc emx <= snd (shr_fexp prc emx m e l).
Proof.
  intros Hm He. split; [|apply shr_fexp_exponent].
  apply shr_fexp_pos_digits; [exact Hm|].
  destruct m as [|p|p]; try lia. cbn [Zdigits2]. lia.
Qed.

(** The result of rounding carries the sign it is given. *)
Lemma binary_round_aux_sign (sx : bool) (mx ex : Z) (lx : location) :
  binary_round_aux prc emx sx mx ex lx = S754_nan
  \/ binary_round_aux prc emx sx mx ex lx = S754_zero sx
  \/ binary_round_aux prc emx sx mx ex lx = S754_infinity sx
  \/ exists m e, binary_round_aux prc emx sx mx ex lx = S754_finite sx m e.
Proof.
  unfold binary_round_aux.
  destruct (shr_fexp prc emx mx ex lx) as [mrs' e'].
  destruct (shr_fexp prc emx _ e' loc_Exact) as [mrs'' e''].
  destruct (shr_m mrs'') as [|m|m]; auto.
  destruct (e'' <=? emx - prc)%Z; eauto 6.
Qed.

Lemma binary_round_aux_valid (sx : bool) (m e : Z) (l : location) :
  sf_valid prc emx (binary_round_aux prc emx sx m e l).
Proof.
  unfold binary_round_aux.
  destruct (shr_fexp prc emx m e l) as [mrs' e'].
  pose proof (shr_fexp_exponent
                (round_nearest_even (shr_m mrs') (loc_of_shr_record mrs'))
                e' loc_Exact) as He.
  destruct (shr_fexp prc emx _ e' loc_Exact) as [mrs'' e'']. simpl in He.
  destruct (shr_m mrs'') as [|m2|m2]; try exact I.
  destruct (e'' <=? emx - prc); [exact He | exact I].
Qed.

Lemma binary_round_aux_nonneg (m e : Z) (l : location) :
  0 <= m -> sf_nonneg (binary_round_aux prc emx false m e l).
Proof.
  intros Hm. unfold binary_round_aux.
  pose proof (shr_fexp_nonneg m e l Hm) as H1.
  destruct (shr_fexp prc emx m e l) as [mrs' e']. simpl in H1.
  pose proof (round_nearest_even_ge (shr_m mrs') (loc_of_shr_record mrs')) as Hr.
  pose proof (shr_fexp_nonneg
                (round_nearest_even (shr_m mrs') (loc_of_shr_record mrs'))
                e' loc_Exact ltac:(lia)) as H2.
  destruct (shr_fexp prc emx _ e' loc_Exact) as [mrs'' e'']. simpl in H2.
  destruct (shr_m mrs'') as [|m2|m2]; try lia; try exact I.
  destruct (e'' <=? emx - prc); exact I.
Qed.

Lemma binary_round_aux_pos_digits (m e : Z) (l : location) :
  0 < m -> SpecFloat.emin prc emx < Zdigits2 m + e ->
  sf_pos (binary_round_aux prc emx false m e l).
Proof.
  intros Hm He. unfold binary_round_aux.
  pose proof (shr_fexp_pos_digits m e l Hm He) as H1.
  pose proof (shr_fexp_exponent m e l) as H1e.
  destruct (shr_fexp prc emx m e l) as [mrs' e']. simpl in H1, H1e.
  pose proof (round_nearest_even_ge (shr_m mrs') (loc_of_shr_record mrs')) as Hr.
  destruct (shr_fexp_pos (round_nearest_even (shr_m mrs') (loc_of_shr_record mrs'))
              e' loc_Exact ltac:(lia) H1e) as [H2 _].
  destruct (shr_fexp prc emx _ e' loc_Exact) as [mrs'' e'']. simpl in H2.
  destruct (shr_m mrs'') as [|m2|m2]; try lia.
  destruct (e'' <=? emx - prc); exact I.
Qed.

Lemma digits2_iter_xO (m d : positive) :
  Z.pos (digits2_pos (Pos.iter xO m d)) = Z.pos (digits2_pos m) + Z.pos d.
Proof.
  induction d as [|d IH] using Pos.peano_ind.
  - simpl. lia.
  - rewrite Pos.iter_succ. cbn [digits2_pos]. lia.
Qed.

Lemma binary_round_valid (sx : bool) (m : positive) (e : Z) :
  sf_valid prc emx (binary_round prc emx sx m e).
Proof.
  unfold binary_round.
  destruct (shl_align m e (fexp prc emx (Z.pos (digits2_pos m) + e))) as [mz ez].
  apply binary_round_aux_valid.
Qed.

Lemma binary_round_nonneg (m : positive) (e : Z) :
  sf_nonneg (binary_round prc emx false m e).
Proof.
  unfold binary_round.
  destruct (shl_align m e (fexp prc emx (Z.pos (digits2_pos m) + e))) as [mz ez].
  apply binary_round_aux_nonneg. lia.
Qed.

Lemma binary_round_pos_digits (m : positive) (e : Z) :
  SpecFloat.emin prc emx < Z.pos (digits2_pos m) + e ->
  sf_pos (binary_round prc emx false m e).
Proof.
  intros He. unfold binary_round.
  destruct (shl_align m e (fexp prc emx (Z.pos (digits2_pos m) + e)))
    as [mz ez] eqn:E.
  apply binary_round_aux_pos_digits; [lia|].
  unfold shl_align in E.
  destruct (fexp prc emx (Z.pos (digits2_pos m) + e) - e)%Z as [|q|q] eqn:Eq;
    injection E as <- <-; cbn [Zdigits2]; try exact He.
  rewrite digits2_iter_xO. unfold fexp in *. lia.
Qed.

Lemma binary_round_pos (m : positive) (e : Z) :
  SpecFloat.emin prc emx <= e -> sf_pos (binary_round prc emx false m e).
Proof.
  intros He. apply binary_round_pos_digits. lia.
Qed.

Lemma binary_normalize_pos (p : positive) :
  (exists m e, binary_normalize prc emx (Z.pos p) 0 false = S754_finite false m e)
  \/ binary_normalize prc emx (Z.pos p) 0 false = S754_infinity false.
Proof.
  assert (Hp : sf_pos (binary_normalize prc emx (Z.pos p) 0 false)).
  { simpl. apply binary_round_pos. unfold SpecFloat.emin. lia. }
  destruct (binary_normalize prc emx (Z.pos p) 0 false) as [s|s| |s m' e'];
    try destruct s; simpl in Hp; try contradiction; eauto.
Qed.

(** Sums of non-negative values of the format. *)
Lemma SFadd_nonneg (x y : spec_float) :
  sf_valid prc emx x -> sf_valid prc emx y ->
  sf_nonneg x -> sf_nonneg y ->
  sf_nonneg (SFadd prc emx x y)
  /\ (sf_pos x \/ sf_pos y -> sf_pos (SFadd prc emx x y)).
Proof.
  intros Vx Vy Hx Hy.
  destruct x as [sx|sx| |sx mx ex]; destruct y as [sy|sy| |sy my ey];
    try destruct sx; try destruct sy; simpl in Hx, Hy; try contradiction.
  1-8: simpl; tauto.
  simpl in Vx, Vy.
  assert (Hp : sf_pos (binary_normalize prc emx
                         (Z.pos (fst (shl_align mx ex (Z.min ex ey)))
                          + Z.pos (fst (shl_align my ey (Z.min ex ey))))
                         (Z.min ex ey) false)).
  { simpl. apply binary_round_pos. lia. }
  unfold SFadd, cond_Zopp.
  split; [|intros _; exact Hp].
  destruct (binary_normalize _ _ _ _ _) as [s|s| |s m e]; try destruct s;
    simpl in *; tauto.
Qed.

(** The constants of [loss] in the format. *)
Lemma fmt_two_pos : sf_pos (fmt_of_float prc emx 2).
Proof.
  unfold fmt_of_float.
  change (Prim2SF 2) with (S754_finite false 4503599627370496 (-51)).
  simpl binary_normalize. apply binary_round_pos_digits.
  change (Z.pos (digits2_pos 4503599627370496)) with 53.
  unfold SpecFloat.emin. lia.
Qed.

Lemma fmt_two_valid : sf_valid prc emx (fmt_of_float prc emx 2).
Proof.
  unfold fmt_of_float.
  change (Prim2SF 2) with (S754_finite false 4503599627370496 (-51)).
  simpl binary_normalize. apply binary_round_valid.
Qed.

Lemma fmt_eps_nonneg : sf_nonneg (fmt_of_float prc emx 1e-8).
Proof.
  unfold fmt_of_float.
  change (Prim2SF 1e-8) with (S754_finite false 6044629098073146 (-79)).
  simpl binary_normalize. apply binary_round_nonneg.
Qed.

Lemma fmt_eps_valid : sf_valid prc emx (fmt_of_float prc emx 1e-8).
Proof.
  unfold fmt_of_float.
  change (Prim2SF 1e-8) with (S754_finite false 6044629098073146 (-79)).
  simpl binary_normalize. apply binary_round_valid.
Qed.

Lemma SFcompare_refl_not_lt (x : spec_float) : SFltb x x = false.
Proof.
  unfold SFltb, SFcompare.
  destruct x as [s|s| |s m e]; try destruct s; try reflexivity.
  all: rewrite Z.compare_refl, Pos.compare_cont_refl; reflexivity.
Qed.

(** The clamped visible-pixel count is never below 2. *)
Lemma sf_clamp_min_floor (lo x : spec_float) :
  SFltb (sf_clamp_min lo x) lo = false.
Proof.
  unfold sf_clamp_min. destruct (SFltb x lo) eqn:E; [|exact E].
  apply SFcompare_refl_not_lt.
Qed.

Lemma sf_clamp_min_zero :
  sf_clamp_min (fmt_of_float prc emx 2) (S754_zero false) = fmt_of_float prc emx 2.
Proof.
  pose proof fmt_two_pos as Hp. unfold sf_clamp_min.
  destruct (fmt_of_float prc emx 2) as [s|s| |s m e]; try destruct s;
    simpl in Hp; try contradiction; reflexivity.
Qed.

(** The divisor of [loss] for a sample without visible pixels. *)
Lemma zero_mask_divisor_pos :
  sf_pos (SFadd prc emx (fmt_of_float prc emx 2) (fmt_of_float prc emx 1e-8)).
Proof.
  apply SFadd_nonneg.
  - apply fmt_two_valid.
  - apply fmt_eps_valid.
  - pose proof fmt_two_pos as Hp.
    destruct (fmt_of_float prc emx 2) as [s|s| |s m e]; try destruct s;
      simpl in *; tauto.
  - apply fmt_eps_nonneg.
  - left. apply fmt_two_pos.
Qed.

Lemma SFdiv_zero_pos (y : spec_float) :
  sf_pos y -> SFdiv prc emx (S754_zero false) y = S754_zero false.
Proof.
  destruct y as [s|s| |s m e]; try destruct s; simpl; try contradiction;
    reflexivity.
Qed.

(** A finite square times zero is the positive zero. *)
Lemma sf_finite_square_mul_zero (d : spec_float) :
  sf_is_finite (SFmul prc emx d d) = true ->
  SFmul prc emx (SFmul prc emx d d) (S754_zero false) = S754_zero false.
Proof.
  destruct d as [s|s| |s m e]; simpl; try discriminate.
  - destruct s; reflexivity.
  - rewrite xorb_nilpotent.
    destruct (binary_round_aux_sign false (Z.pos (m * m)) (e + e) loc_Exact)
      as [H|[H|[H|(m' & e' & H)]]]; rewrite H; simpl; try discriminate;
      reflexivity.
Qed.

Lemma sf_sum_zeros (l : list spec_float) :
  Forall (fun v => v = S754_zero false) l -> sf_sum prc emx l = S754_zero false.
Proof.
  unfold sf_sum. induction 1 as [|v l -> _ IH]; simpl; [reflexivity|].
  exact IH.
Qed.

Lemma sf_sum_dims321_zeros {A : Type} (s : list (list (list A))) :
  sf_sum_dims321 prc emx (map3 (fun _ => S754_zero false) s) = S754_zero false.
Proof.
  unfold sf_sum_dims321, map3. apply sf_sum_zeros.
  apply Forall_concat, Forall_concat.
  apply Forall_map, Forall_forall. intros r _.
  apply Forall_map, Forall_forall. intros c _.
  apply Forall_map, Forall_forall. intros v _. reflexivity.
Qed.

Lemma fmt_of_nat_pos (n : nat) :
  (0 < n)%nat -> sf_pos (fmt_of_Z prc emx (Z.of_nat n)).
Proof.
  intros Hn. unfold fmt_of_Z.
  destruct (Z.of_nat n) as [|p|p] eqn:E; try lia.
  simpl. apply binary_round_pos. unfold SpecFloat.emin. lia.
Qed.
End Rounding.

(** ** Binary64 facts *)

Section FloatFacts.
Local Open Scope float_scope.

Lemma is_finite_SF (x : float) :
  is_finite x = true ->
  (exists s, Prim2SF x = S754_zero s) \/ (exists s m e, Prim2SF x = S754_finite s m e).
Proof.
  unfold is_finite, is_nan, is_infinity.
  rewrite !FloatAxioms.eqb_spec, FloatAxioms.abs_spec.
  destruct (Prim2SF x) as [s|s| |s m e] eqn:E.
  - intros _. left. eauto.
  - replace (Prim2SF infinity) with (S754_infinity false) by reflexivity.
    simpl. unfold SFeqb; simpl. rewrite orb_true_r. discriminate.
  - unfold SFeqb; simpl. discriminate.
  - intros _. right. eauto.
Qed.

Lemma zero_div_pos (y : float) :
  (exists m e, Prim2SF y = S754_finite false m e) \/ Prim2SF y = S754_infinity false ->
  0 / y = 0.
Proof.
  intros Hy. apply Prim2SF_inj. rewrite FloatAxioms.div_spec. unfold SF64div.
  replace (Prim2SF 0) with (S754_zero false) by reflexivity.
  destruct Hy as [(m & e & ->)| ->]; reflexivity.
Qed.
End FloatFacts.

Lemma float_of_nat_pos (n : nat) :
  (0 < Z.of_nat n < 2 ^ 63)%Z ->
  (exists m e, Prim2SF (float_of_nat n) = S754_finite false m e)
  \/ Prim2SF (float_of_nat n) = S754_infinity false.
Proof.
  intros Hn. unfold float_of_nat.
  rewrite of_uint63_spec, Uint63.of_Z_spec.
  rewrite Z.mod_small by (unfold wB; simpl; lia).
  destruct (Z.of_nat n) as [|p|p] eqn:E; try lia.
  apply (binary_normalize_pos prec emax); reflexivity.
Qed.

(** ** [RFDet.loss] *)

Section Loss.
Local Open Scope float_scope.

Lemma zip_exact_pair {A B M D Z : Type}
    (f : A -> B -> result D) (g : D -> M -> result Z)
    (Q : A -> B -> Prop) (k : A -> M) (h : A -> Z) :
  (forall x y, Q x y -> exists d, f x y = Ok d /\ g d (k x) = Ok (h x)) ->
  forall a b, Forall2 Q a b ->
    exists d, zip_exact f a b = Ok d /\ zip_exact g d (map k a) = Ok (map h a).
Proof.
  intros Hfg a b Hab.
  induction Hab as [|x y a b Hxy _ (ds & Hds & Hgs)]; simpl.
  - exists []. split; reflexivity.
  - destruct (Hfg x y Hxy) as (d & Hd & Hg).
    exists (d :: ds). rewrite Hd, Hds; simpl. split; [reflexivity|].
    rewrite Hg, Hgs. reflexivity.
Qed.

Lemma zip_exact_diag {A D M Z : Type} (g : D -> M -> result Z)
    (j : A -> D) (k : A -> M) (h : A -> Z) (l : list A) :
  (forall x, g (j x) (k x) = Ok (h x)) ->
  zip_exact g (map j l) (map k l) = Ok (map h l).
Proof.
  intros Hg. induction l as [|x l IH]; simpl; [reflexivity|].
  rewrite Hg, IH. reflexivity.
Qed.

Lemma sum_f_zeros (l : list float) : Forall (fun v => v = 0) l -> sum_f l = 0.
Proof.
  unfold sum_f. induction 1 as [|v l -> _ IH]; simpl; [reflexivity|].
  exact IH.
Qed.

Lemma sum_dims321_zeros {A : Type} (s : list (list (list A))) :
  sum_dims321 (map3 (fun _ => 0) s) = 0.
Proof.
  unfold sum_dims321, map3. apply sum_f_zeros.
  apply Forall_concat, Forall_concat.
  apply Forall_map, Forall_forall. intros r _.
  apply Forall_map, Forall_forall. intros c _.
  apply Forall_map, Forall_forall. intros v _. reflexivity.
Qed.

End Loss.

Section LossIn.
Variables prc emx : Z.
Hypothesis prc_pos : (0 < prc)%Z.
Hypothesis prc_emx : (prc < emx)%Z.

Lemma sf_masked_diff_zero (left_score im1gt_score : tensor4s) :
  Forall2_4 (fun a b => sf_is_finite
                          (SFmul prc emx (SFsub prc emx a b) (SFsub prc emx a b))
                        = true)
    left_score im1gt_score ->
  exists d,
    zip4d (fun a b => SFmul prc emx (SFsub prc emx a b) (SFsub prc emx a b))
      left_score im1gt_score = Ok d
    /\ zip4d (SFmul prc emx) d (zeros_like_s left_score)
       = Ok (zeros_like_s left_score).
Proof.
  unfold Forall2_4, zip4d, zeros_like_s, map4.
  apply zip_exact_pair. intros s1 s2.
  apply zip_exact_pair. intros r1 r2.
  apply zip_exact_pair. intros c1 c2.
  apply zip_exact_pair. intros a b Hab.
  eexists. split; [reflexivity|].
  f_equal. apply sf_finite_square_mul_zero, Hab.
Qed.

Lemma loss_Nvi_zero_mask (x : tensor4s) :
  RFDet.loss_Nvi prc emx (zeros_like_s x) = map (fun _ => fmt_of_float prc emx 2) x.
Proof.
  unfold RFDet.loss_Nvi, zeros_like_s, map4. rewrite map_map.
  apply map_ext. intros s.
  fold (@map3 spec_float spec_float (fun _ => S754_zero false) s).
  rewrite sf_sum_dims321_zeros. apply sf_clamp_min_zero; assumption.
Qed.

Lemma loss_in_zero_mask (left_score im1gt_score : tensor4s) :
  left_score <> [] ->
  Forall2_4 (fun a b => sf_is_finite
                          (SFmul prc emx (SFsub prc emx a b) (SFsub prc emx a b))
                        = true)
    left_score im1gt_score ->
  RFDet.loss_in prc emx left_score im1gt_score (zeros_like_s left_score)
  = Ok (S754_zero false).
Proof.
  intros Hne Hfin. unfold RFDet.loss_in.
  destruct (sf_masked_diff_zero left_score im1gt_score Hfin) as (d & -> & Hm).
  cbn [bind]. rewrite Hm. cbn [bind].
  rewrite loss_Nvi_zero_mask.
  unfold zeros_like_s, map4.
  rewrite (zip_exact_diag _ _ _ (fun _ => S754_zero false)).
  - cbn [bind]. unfold sf_mean. rewrite sf_sum_zeros.
    + rewrite length_map. f_equal.
      apply SFdiv_zero_pos, fmt_of_nat_pos; try assumption.
      destruct left_score; [contradiction | simpl; lia].
    + apply Forall_map, Forall_forall. intros; reflexivity.
  - intros s. f_equal.
    fold (@map3 spec_float spec_float (fun _ => S754_zero false) s).
    rewrite sf_sum_dims321_zeros.
    apply SFdiv_zero_pos, zero_mask_divisor_pos; assumption.
Qed.
(** What [loss] returns: the mean of one quotient per batch element,
    whose divisor is that element's [Nvi] plus 1e-8. *)
Lemma zip_exact_combine {A B D Z : Type} (g : A -> D) (F : D -> B -> Z)
    (a : list A) (b : list B) (q : list Z) :
  zip_exact (fun s n => Ok (F (g s) n)) a b = Ok q ->
  length a = length b
  /\ q = map (fun sn => F (fst sn) (snd sn)) (combine (map g a) b).
Proof.
  revert b q. induction a as [|x a IH]; intros [|y b] q; cbn [zip_exact bind];
    try discriminate.
  - intros E; injection E as <-. split; reflexivity.
  - destruct (zip_exact _ a b) as [zs|] eqn:Ez; cbn [bind]; [|discriminate].
    intros E; injection E as <-.
    destruct (IH b zs Ez) as [Hl ->]. split; [simpl; lia | reflexivity].
Qed.

Lemma loss_in_quotients (left_score im1gt_score im1visible_mask : tensor4s)
    (r : spec_float) :
  RFDet.loss_in prc emx left_score im1gt_score im1visible_mask = Ok r ->
  exists sums : list spec_float,
    length sums = length im1visible_mask
    /\ r = sf_mean prc emx
             (map (fun sn => SFdiv prc emx (fst sn)
                               (SFadd prc emx (snd sn) (fmt_of_float prc emx 1e-8)))
                (combine sums (RFDet.loss_Nvi prc emx im1visible_mask))).
Proof.
  unfold RFDet.loss_in.
  destruct (zip4d _ left_score im1gt_score) as [d|]; cbn [bind]; [|discriminate].
  destruct (zip4d _ d im1visible_mask) as [masked|]; cbn [bind]; [|discriminate].
  destruct (zip_exact _ masked _) as [q|] eqn:Eq; cbn [bind]; [|discriminate].
  intros E; injection E as <-.
  apply (zip_exact_combine (sf_sum_dims321 prc emx)
           (fun s n => SFdiv prc emx s
                         (SFadd prc emx n (fmt_of_float prc emx 1e-8)))) in Eq.
  destruct Eq as [Hl ->].
  exists (map (sf_sum_dims321 prc emx) masked). split; [|reflexivity].
  rewrite length_map, Hl. unfold RFDet.loss_Nvi. apply length_map.
Qed.
End LossIn.


(** [RFDet.loss] and [RFDet.loss_in] at binary64. *)

Section Binary64.

Lemma zip_exact_image {A B C A' B' C' : Type}
    (f : A -> B -> result C) (f' : A' -> B' -> result C')
    (ha : A -> A') (hb : B -> B') (hc : C -> C') :
  (forall x y, f' (ha x) (hb y) = result_map hc (f x y)) ->
  forall a b,
    zip_exact f' (map ha a) (map hb b) = result_map (map hc) (zip_exact f a b).
Proof.
  intros Hf. induction a as [|x a IH]; intros [|y b]; simpl; try reflexivity.
  rewrite Hf, IH.
  destruct (f x y); simpl; [|reflexivity].
  destruct (zip_exact f a b); reflexivity.
Qed.

Lemma zip4d_image {A B C A' B' C' : Type}
    (f : A -> B -> C) (f' : A' -> B' -> C')
    (ha : A -> A') (hb : B -> B') (hc : C -> C') :
  (forall x y, f' (ha x) (hb y) = hc (f x y)) ->
  forall a b,
    zip4d f' (map4 ha a) (map4 hb b) = result_map (map4 hc) (zip4d f a b).
Proof.
  intros Hf. unfold zip4d, map4.
  apply zip_exact_image. apply zip_exact_image. apply zip_exact_image.
  apply zip_exact_image. intros x y. simpl. rewrite Hf. reflexivity.
Qed.

Lemma zip_exact_length {A B C : Type} (f : A -> B -> result C) a b c :
  zip_exact f a b = Ok c -> length c = length a.
Proof.
  revert b c. induction a as [|x a IH]; intros [|y b] c; simpl; try discriminate.
  - intros E; injection E as <-. reflexivity.
  - destruct (f x y); simpl; [|discriminate].
    destruct (zip_exact f a b) eqn:E; simpl; [|discriminate].
    intros E'; injection E' as <-. simpl. f_equal. eapply IH, E.
Qed.

Lemma sum_f_image (l : list float) :
  Prim2SF (sum_f l) = sf_sum prec emax (map Prim2SF l).
Proof.
  unfold sum_f, sf_sum.
  change (S754_zero false) with (Prim2SF 0).
  generalize 0%float as acc.
  induction l as [|v l IH]; intros acc; simpl; [reflexivity|].
  rewrite IH, FloatAxioms.add_spec. reflexivity.
Qed.

Lemma sum_dims321_image (s : list (list (list float))) :
  Prim2SF (sum_dims321 s) = sf_sum_dims321 prec emax (map3 Prim2SF s).
Proof.
  unfold sum_dims321, sf_sum_dims321, map3.
  rewrite sum_f_image, !concat_map. reflexivity.
Qed.

Lemma clamp_min_image (x : float) :
  Prim2SF (clamp_min 2 x) = sf_clamp_min (fmt_of_float prec emax 2) (Prim2SF x).
Proof.
  unfold clamp_min, sf_clamp_min.
  rewrite FloatAxioms.ltb_spec.
  change (fmt_of_float prec emax 2) with (Prim2SF 2).
  destruct (SFltb (Prim2SF x) (Prim2SF 2)); reflexivity.
Qed.

Lemma mean_f_image (q : list float) :
  (Z.of_nat (length q) < 2 ^ 63)%Z ->
  Prim2SF (mean_f q) = sf_mean prec emax (map Prim2SF q).
Proof.
  intros Hq. unfold mean_f, sf_mean, float_of_nat, fmt_of_Z.
  rewrite FloatAxioms.div_spec, sum_f_image, of_uint63_spec, Uint63.of_Z_spec.
  rewrite Z.mod_small by (unfold wB; simpl; lia).
  rewrite length_map. reflexivity.
Qed.

(** [RFDet.loss] is [loss_in] at binary64. *)
Lemma loss_binary64 (left_score im1gt_score im1visible_mask : tensor4f) :
  (Z.of_nat (length left_score) < 2 ^ 63)%Z ->
  RFDet.loss_in prec emax (map4 Prim2SF left_score) (map4 Prim2SF im1gt_score)
    (map4 Prim2SF im1visible_mask)
  = result_map Prim2SF (RFDet.loss left_score im1gt_score im1visible_mask).
Proof.
  intros HB. unfold RFDet.loss_in, RFDet.loss.
  rewrite (zip4d_image (fun a b => ((a - b) * (a - b))%float) _ Prim2SF Prim2SF Prim2SF)
    by (intros; rewrite FloatAxioms.mul_spec, FloatAxioms.sub_spec; reflexivity).
  destruct (zip4d _ left_score im1gt_score) as [d|e] eqn:Ed; [|reflexivity].
  cbn [result_map bind].
  rewrite (zip4d_image PrimFloat.mul _ Prim2SF Prim2SF Prim2SF)
    by (intros; rewrite FloatAxioms.mul_spec; reflexivity).
  destruct (zip4d PrimFloat.mul d im1visible_mask) as [mk|e] eqn:Em; [|reflexivity].
  cbn [result_map bind].
  assert (HN : RFDet.loss_Nvi prec emax (map4 Prim2SF im1visible_mask)
               = map Prim2SF (map (fun s => clamp_min 2 (sum_dims321 s))
                                im1visible_mask)).
  { unfold RFDet.loss_Nvi, map4. rewrite !map_map. apply map_ext. intros s.
    rewrite clamp_min_image, sum_dims321_image. reflexivity. }
  rewrite HN. unfold map4 at 1.
  rewrite (zip_exact_image
             (fun s n => Ok (sum_dims321 s / (n + 1e-8))%float) _
             (map (map (map Prim2SF))) Prim2SF Prim2SF).
  2: { intros s n. cbn [result_map]. f_equal.
       rewrite FloatAxioms.div_spec, FloatAxioms.add_spec.
       fold (@map3 float spec_float Prim2SF s).
       rewrite <- sum_dims321_image. reflexivity. }
  destruct (zip_exact _ mk _) as [q|e] eqn:Eq; [|reflexivity].
  cbn [result_map bind]. f_equal. symmetry. apply mean_f_image.
  apply zip_exact_length in Eq. apply zip_exact_length in Em.
  apply zip_exact_length in Ed. lia.
Qed.
End Binary64.

(** C9 (as stated, refuted): for finite score maps whose squared
    difference overflows, [loss] with an all-zero mask returns NaN: on
    [torch.float32] tensors for a prediction of 2^70, on [torch.float64]
    tensors for one of 1e200. *)
Lemma loss_zero_mask_nan :
  (sf_is_finite (fmt_of_Z 24 128 (2 ^ 70)) = true
   /\ RFDet.loss_in 24 128 [[[[fmt_of_Z 24 128 (2 ^ 70)]]]] [[[[S754_zero false]]]]
        (zeros_like_s [[[[fmt_of_Z 24 128 (2 ^ 70)]]]])
      = Ok S754_nan)
  /\ (is_finite 1e200 = true
      /\ RFDet.loss [[[[1e200%float]]]] [[[[0%float]]]]
           (zeros_like [[[[1e200%float]]]])
         = Ok nan
      /\ is_finite nan = false).
Proof.
  split; [split; vm_compute; reflexivity|].
  split; [reflexivity|]. split; [vm_compute; reflexivity | reflexivity].
Qed.

(** C9 (amended): in every binary floating-point format, for a non-empty
    batch of predicted and ground-truth score maps of one shape whose
    squared differences are all finite in that format, [loss] with the
    all-zero mask of that shape returns the finite value 0.  Whatever
    [loss] returns is the mean of one quotient per batch element whose
    divisor is that element's visible-pixel count [Nvi] plus 1e-8; for
    every mask no [Nvi] is below 2, and for the all-zero mask every
    divisor is positive. *)
Theorem loss_zero_mask_finite (prc emx : Z) (left_score im1gt_score : tensor4s) :
  (0 < prc < emx)%Z ->
  left_score <> [] ->
  Forall2_4 (fun a b => sf_is_finite
                          (SFmul prc emx (SFsub prc emx a b) (SFsub prc emx a b))
                        = true)
    left_score im1gt_score ->
  RFDet.loss_in prc emx left_score im1gt_score (zeros_like_s left_score)
  = Ok (S754_zero false)
  /\ (forall (l g im1visible_mask : tensor4s) (r : spec_float),
        RFDet.loss_in prc emx l g im1visible_mask = Ok r ->
        exists sums : list spec_float,
          length sums = length im1visible_mask
          /\ r = sf_mean prc emx
                   (map (fun sn =>
                           SFdiv prc emx (fst sn)
                             (SFadd prc emx (snd sn) (fmt_of_float prc emx 1e-8)))
                      (combine sums (RFDet.loss_Nvi prc emx im1visible_mask))))
  /\ (forall im1visible_mask : tensor4s,
        Forall (fun n => SFltb n (fmt_of_float prc emx 2) = false)
          (RFDet.loss_Nvi prc emx im1visible_mask))
  /\ Forall (fun n => sf_pos (SFadd prc emx n (fmt_of_float prc emx 1e-8)))
       (RFDet.loss_Nvi prc emx (zeros_like_s left_score)).
Proof.
  intros [Hp He] Hne Hfin. split; [|split; [|split]].
  - apply loss_in_zero_mask; assumption.
  - intros l g mask r. apply loss_in_quotients.
  - intros mask. unfold RFDet.loss_Nvi. apply Forall_map, Forall_forall.
    intros s _. apply sf_clamp_min_floor.
  - rewrite loss_Nvi_zero_mask by assumption.
    apply Forall_map, Forall_forall. intros s _.
    apply zero_mask_divisor_pos; assumption.
Qed.

Lemma loss_zero_mask_finite_witness :
  RFDet.loss_in 24 128 demo_left_score demo_gt_score (zeros_like_s demo_left_score)
  = Ok (S754_zero false)
  /\ (forall (l g im1visible_mask : tensor4s) (r : spec_float),
        RFDet.loss_in 24 128 l g im1visible_mask = Ok r ->
        exists sums : list spec_float,
          length sums = length im1visible_mask
          /\ r = sf_mean 24 128
                   (map (fun sn =>
                           SFdiv 24 128 (fst sn)
                             (SFadd 24 128 (snd sn) (fmt_of_float 24 128 1e-8)))
                      (combine sums (RFDet.loss_Nvi 24 128 im1visible_mask))))
  /\ (forall im1visible_mask : tensor4s,
        Forall (fun n => SFltb n (fmt_of_float 24 128 2) = false)
          (RFDet.loss_Nvi 24 128 im1visible_mask))
  /\ Forall (fun n => sf_pos (SFadd 24 128 n (fmt_of_float 24 128 1e-8)))
       (RFDet.loss_Nvi 24 128 (zeros_like_s demo_left_score)).
Proof.
  apply (loss_zero_mask_finite 24 128 demo_left_score demo_gt_score).
  - lia.
  - discriminate.
  - repeat first [apply Forall2_nil | apply Forall2_cons]; vm_compute; reflexivity.
Defined.

(** ** [channel_shuffle]: outcomes, index formula, inverse *)

Section ShuffleMore.
Context {P : Type}.
Implicit Types (l r : list P) (m : list (list P)) (x y : tensor P).

Lemma view_groups_nth g n l k :
  k < g -> nth_error (view_groups g n l) k = Some (firstn n (skipn (k * n) l)).
Proof.
  revert l k. induction g as [|g IH]; intros l k Hk; [lia|].
  destruct k as [|k]; simpl; [reflexivity|].
  rewrite IH by lia. rewrite skipn_skipn. do 3 f_equal. lia.
Qed.

Lemma zip_cons_nth r m i :
  nth_error (zip_cons r m) i
  = match nth_error r i, nth_error m i with
    | Some a, Some c => Some (a :: c)
    | _, _ => None
    end.
Proof.
  revert m i. induction r as [|a r IH]; intros [|c m] [|i]; simpl;
    try reflexivity.
  - destruct (nth_error r i); reflexivity.
  - apply IH.
Qed.

Lemma get2_transpose g n m i k :
  rect g n m -> get2 (transpose n m) i k = get2 m k i.
Proof.
  revert g k. induction m as [|r m IH]; intros g k [Hl Hf]; simpl in *.
  - unfold get2. destruct k; simpl.
    + destruct (nth_error (repeat [] n) i) as [row|] eqn:E; [|reflexivity].
      apply nth_error_In, repeat_spec in E. subst row. reflexivity.
    + destruct (nth_error (repeat [] n) i) as [row|] eqn:E; [|reflexivity].
      apply nth_error_In, repeat_spec in E. subst row. reflexivity.
  - inversion Hf as [|? ? Hr Hm]; subst.
    assert (Hrect : rect (length m) (length r) m) by (split; auto).
    destruct (transpose_rect _ _ _ Hrect) as [Hlt _].
    specialize (IH (length m)).
    unfold get2 in *. rewrite zip_cons_nth.
    destruct k as [|k]; simpl.
    + destruct (nth_error r i) as [a|] eqn:Ea; [|reflexivity].
      destruct (nth_error (transpose (length r) m) i) as [c|] eqn:Ec;
        [reflexivity|].
      apply nth_error_None in Ec.
      assert (i < length r) by (apply nth_error_Some; congruence). lia.
    + specialize (IH k Hrect).
      destruct (nth_error r i) as [a|] eqn:Ea.
      * destruct (nth_error (transpose (length r) m) i) as [c|] eqn:Ec;
          [exact IH|].
        apply nth_error_None in Ec.
        assert (i < length r) by (apply nth_error_Some; congruence). lia.
      * assert (Hn : nth_error (transpose (length r) m) i = None).
        { apply nth_error_None. apply nth_error_None in Ea. lia. }
        rewrite Hn in IH. exact IH.
Qed.

Lemma concat_nth g m i k :
  Forall (fun r => length r = g) m -> k < g ->
  nth_error (concat m) (i * g + k) = get2 m i k.
Proof.
  intros Hm Hk. revert i. induction Hm as [|r m Hr _ IH]; intros i; simpl.
  - unfold get2. destruct i; destruct (_ + k); reflexivity.
  - destruct i as [|i]; unfold get2; simpl.
    + apply nth_error_app1. lia.
    + rewrite nth_error_app2 by lia.
      replace (g + i * g + k - length r) with (i * g + k) by lia.
      apply IH.
Qed.

(** Channel [i * g + k] of the shuffled sample is channel [k * n + i] of
    the original one. *)
Lemma interleave_nth g n l i k :
  length l = g * n -> i < n -> k < g ->
  nth_error (interleave g n l) (i * g + k) = nth_error l (k * n + i).
Proof.
  intros Hl Hi Hk. unfold interleave.
  pose proof (view_groups_rect g n l Hl) as Hv.
  destruct (transpose_rect _ _ _ Hv) as [_ Ht].
  rewrite (concat_nth g _ i k Ht Hk).
  rewrite (get2_transpose g n _ i k Hv).
  unfold get2. rewrite view_groups_nth by exact Hk.
  rewrite nth_error_firstn, nth_error_skipn.
  destruct (Nat.ltb_spec i n); [reflexivity | lia].
Qed.

Lemma mapM_inv {A B : Type} (f : A -> result B) (a : list A) (b : list B) :
  mapM f a = Ok b -> Forall2 (fun u v => f u = Ok v) a b.
Proof.
  revert b. induction a as [|u a IH]; intros b; simpl.
  - intros E; injection E as <-. constructor.
  - destruct (f u) as [v|] eqn:Eu; simpl; [|discriminate].
    destruct (mapM f a) as [vs|]; simpl; [|discriminate].
    intros E; injection E as <-. constructor; auto.
Qed.

Lemma mapM_raise {A B : Type} (f : A -> result B) (a : list A) (e0 e : exn) :
  (forall u e', f u = Raise e' -> e' = e0) ->
  mapM f a = Raise e -> e = e0 /\ Exists (fun u => f u = Raise e0) a.
Proof.
  intros Hf. induction a as [|u a IH]; simpl; [discriminate|].
  destruct (f u) as [v|e1] eqn:Eu; simpl.
  - destruct (mapM f a) as [vs|e2]; simpl; [discriminate|].
    intros E; injection E as <-.
    destruct (IH eq_refl) as [-> Hex]. split; [reflexivity|].
    apply Exists_cons_tl, Hex.
  - intros E; injection E as <-.
    assert (He : e1 = e0) by exact (Hf u e1 Eu). subst e1.
    split; [reflexivity|]. apply Exists_cons_hd, Eu.
Qed.

Lemma channel_shuffle_sample_inv l g o :
  channel_shuffle_sample l g = Ok o ->
  g <> 0 /\ length l mod g = 0 /\ o = interleave g (length l / g) l.
Proof.
  unfold channel_shuffle_sample.
  destruct (Nat.eqb_spec g 0) as [->|Hg]; [discriminate|].
  destruct (Nat.eqb_spec (g * (length l / g)) (length l)) as [E|_];
    [|discriminate].
  intros Ho; injection Ho as <-. repeat split; [exact Hg|].
  apply Nat.Div0.div_exact. symmetry. exact E.
Qed.

Lemma channel_shuffle_sample_raise l g e :
  channel_shuffle_sample l g = Raise e ->
  (g = 0 /\ e = ZeroDivisionError)
  \/ (g <> 0 /\ length l mod g <> 0 /\ e = RuntimeError).
Proof.
  unfold channel_shuffle_sample.
  destruct (Nat.eqb_spec g 0) as [->|Hg].
  - intros E; injection E as <-. left; split; reflexivity.
  - destruct (Nat.eqb_spec (g * (length l / g)) (length l)) as [E|E];
      [discriminate|].
    intros Ee; injection Ee as <-. right. repeat split; [exact Hg|].
    intros Hm. apply E. symmetry. apply Nat.Div0.div_exact. exact Hm.
Qed.
End ShuffleMore.

Section ShuffleOutcome.
Context {P : Type}.
Implicit Types (l : list P) (x y : tensor P).

Lemma shuffle_mapM_ok g x :
  g <> 0 -> Forall (fun s => length s mod g = 0) x ->
  mapM (fun s => channel_shuffle_sample s g) x
  = Ok (map (fun s => interleave g (length s / g) s) x).
Proof.
  intros Hg Hx. apply mapM_ok.
  eapply Forall_impl; [|exact Hx]. intros s Hs.
  apply channel_shuffle_sample_ok; [lia|].
  apply Nat.Div0.div_exact in Hs. exact Hs.
Qed.

Lemma channel_shuffle_ok_iff x g y :
  channel_shuffle x g = Ok y
  <-> g <> 0 /\ x <> []
      /\ Forall (fun s => length s mod g = 0) x
      /\ y = map (fun s => interleave g (length s / g) s) x.
Proof.
  unfold channel_shuffle. split.
  - destruct (Nat.eqb_spec g 0) as [->|Hg]; [discriminate|].
    destruct x as [|s0 x]; [discriminate|]. intros E.
    assert (Hall : Forall (fun s => length s mod g = 0) (s0 :: x)).
    { apply mapM_inv in E. clear - E.
      induction E as [|u v a b Huv _ IH]; constructor; auto.
      apply (channel_shuffle_sample_inv _ _ _ Huv). }
    repeat split; [exact Hg | discriminate | exact Hall |].
    rewrite (shuffle_mapM_ok g _ Hg Hall) in E. injection E as <-. reflexivity.
  - intros (Hg & Hne & Hall & ->).
    destruct (Nat.eqb_spec g 0) as [->|_]; [contradiction|].
    destruct x as [|s0 x]; [contradiction|].
    apply shuffle_mapM_ok; assumption.
Qed.

Lemma channel_shuffle_raise_iff x g e :
  channel_shuffle x g = Raise e
  <-> (g = 0 /\ e = ZeroDivisionError)
      \/ (g <> 0 /\ (x = [] \/ Exists (fun s => length s mod g <> 0) x)
          /\ e = RuntimeError).
Proof.
  unfold channel_shuffle. split.
  - destruct (Nat.eqb_spec g 0) as [->|Hg].
    + intros E; injection E as <-. left; split; reflexivity.
    + destruct x as [|s0 x].
      * intros E; injection E as <-. right. repeat split; auto.
      * intros E. right.
        apply (mapM_raise _ _ RuntimeError) in E.
        -- destruct E as [-> Hex]. repeat split; [exact Hg|]. right.
           apply Exists_exists in Hex. destruct Hex as (s & Hin & Hs).
           apply Exists_exists. exists s. split; [exact Hin|].
           destruct (channel_shuffle_sample_raise _ _ _ Hs)
             as [[H0 _]|(_ & Hm & _)]; [contradiction | exact Hm].
        -- intros u e' Hu.
           destruct (channel_shuffle_sample_raise _ _ _ Hu)
             as [[H0 _]|(_ & _ & He)]; [contradiction | exact He].
  - intros [[-> ->]|(Hg & Hx & ->)]; [reflexivity|].
    destruct (Nat.eqb_spec g 0) as [->|_]; [contradiction|].
    destruct Hx as [->|Hex]; [reflexivity|].
    destruct x as [|s0 x]; [reflexivity|].
    destruct (mapM _ (s0 :: x)) as [y|e] eqn:E.
    + exfalso. apply mapM_inv in E.
      apply Exists_exists in Hex. destruct Hex as (s & Hin & Hs).
      clear - E Hin Hs.
      induction E as [|u v a b Huv _ IH]; [contradiction|].
      destruct Hin as [->|Hin]; [|auto].
      apply Hs, (channel_shuffle_sample_inv _ _ _ Huv).
    + f_equal. apply (mapM_raise _ _ RuntimeError) in E; [apply E|].
      intros u e' Hu.
      destruct (channel_shuffle_sample_raise _ _ _ Hu)
        as [[H0 _]|(_ & _ & He)]; [contradiction | exact He].
Qed.

Lemma interleave_one_group l : interleave 1 (length l) l = l.
Proof.
  apply nth_error_ext. intros j.
  assert (Hl : length l = 1 * length l) by lia.
  destruct (Nat.lt_ge_cases j (length l)) as [Hj|Hj].
  - pose proof (interleave_nth 1 (length l) l j 0 Hl Hj ltac:(lia)) as E.
    rewrite Nat.mul_1_r, Nat.add_0_r in E. exact E.
  - pose proof (interleave_length 1 (length l) l Hl) as Hlen.
    transitivity (@None P); [|symmetry]; apply nth_error_None; lia.
Qed.

Lemma interleave_all_groups l : interleave (length l) 1 l = l.
Proof.
  apply nth_error_ext. intros j.
  assert (Hl : length l = length l * 1) by lia.
  destruct (Nat.lt_ge_cases j (length l)) as [Hj|Hj].
  - pose proof (interleave_nth (length l) 1 l 0 j Hl ltac:(lia) Hj) as E.
    simpl in E. rewrite Nat.mul_1_r, Nat.add_0_r in E. exact E.
  - pose proof (interleave_length (length l) 1 l Hl) as Hlen.
    transitivity (@None P); [|symmetry]; apply nth_error_None; lia.
Qed.
End ShuffleOutcome.

(** X1: for a non-negative group count, [channel_shuffle] raises
    [ZeroDivisionError] when the count is zero; with a positive count it
    raises [RuntimeError] on an empty batch and on a channel count that
    is not a multiple of the group count.  Whenever it returns, the
    group count is positive, the batch is not empty, every channel count
    is a multiple of the group count, and each sample of the result is
    the interleaving of the sample's groups. *)
Theorem channel_shuffle_outcome {P : Type} (x : tensor P) (g : nat) :
  (g = 0 -> channel_shuffle x g = Raise ZeroDivisionError)
  /\ (g <> 0 -> x = [] \/ Exists (fun s => length s mod g <> 0) x ->
      channel_shuffle x g = Raise RuntimeError)
  /\ (forall y, channel_shuffle x g = Ok y ->
        g <> 0 /\ x <> []
        /\ Forall (fun s => length s mod g = 0) x
        /\ y = map (fun s => interleave g (length s / g) s) x).
Proof.
  split; [|split].
  - intros ->. reflexivity.
  - intros Hg Hx. apply channel_shuffle_raise_iff. right. auto.
  - intros y. apply channel_shuffle_ok_iff.
Qed.

(** X2: when [channel_shuffle] returns, the result has the batch size of
    the input and each of its samples is a permutation of the channels of
    the corresponding input sample. *)
Theorem channel_shuffle_permutes {P : Type} (x y : tensor P) (g : nat) :
  channel_shuffle x g = Ok y ->
  length y = length x /\ Forall2 (@Permutation P) x y.
Proof.
  intros E. apply channel_shuffle_ok_iff in E.
  destruct E as (Hg & _ & Hall & ->). split; [apply length_map|].
  induction Hall as [|s x Hs _ IH]; simpl; constructor; [|exact IH].
  apply interleave_perm. apply Nat.Div0.div_exact in Hs. exact Hs.
Qed.

Lemma channel_shuffle_permutes_witness :
  length [[0; 3; 1; 4; 2; 5]] = length [[0; 1; 2; 3; 4; 5]]
  /\ Forall2 (@Permutation nat) [[0; 1; 2; 3; 4; 5]] [[0; 3; 1; 4; 2; 5]].
Proof.
  apply (channel_shuffle_permutes [[0; 1; 2; 3; 4; 5]] [[0; 3; 1; 4; 2; 5]] 2).
  reflexivity.
Defined.

(** X3: when [channel_shuffle] with [g] groups returns, channel
    [i * g + k] of each result sample is channel [k * n + i] of the input
    sample, [n] being the number of channels per group. *)
Theorem channel_shuffle_index {P : Type} (x y : tensor P) (g : nat) :
  channel_shuffle x g = Ok y ->
  Forall2 (fun s o =>
             forall i k, i < length s / g -> k < g ->
               nth_error o (i * g + k) = nth_error s (k * (length s / g) + i))
    x y.
Proof.
  intros E. apply channel_shuffle_ok_iff in E.
  destruct E as (Hg & _ & Hall & ->).
  induction Hall as [|s x Hs _ IH]; simpl; constructor; [|exact IH].
  intros i k Hi Hk. apply interleave_nth; [|exact Hi|exact Hk].
  apply Nat.Div0.div_exact in Hs. exact Hs.
Qed.

Lemma channel_shuffle_index_witness :
  Forall2 (fun s o =>
             forall i k, i < length s / 3 -> k < 3 ->
               nth_error o (i * 3 + k) = nth_error s (k * (length s / 3) + i))
    [[0; 1; 2; 3; 4; 5]] [[0; 2; 4; 1; 3; 5]].
Proof.
  apply (channel_shuffle_index [[0; 1; 2; 3; 4; 5]] [[0; 2; 4; 1; 3; 5]] 3).
  reflexivity.
Defined.

(** X4: on a non-empty tensor of [g * n] channels, [channel_shuffle] with
    [g] groups followed by [channel_shuffle] with [n] groups gives the
    tensor back. *)
Theorem channel_shuffle_inverse {P : Type} (g n : nat) (x : tensor P) :
  0 < g -> 0 < n -> x <> [] ->
  Forall (fun s => length s = g * n) x ->
  exists y, channel_shuffle x g = Ok y /\ channel_shuffle y n = Ok x.
Proof.
  intros Hg Hn Hne Hx.
  exists (map (interleave g n) x). split.
  - apply channel_shuffle_ok; assumption.
  - rewrite (channel_shuffle_ok n g).
    + rewrite interleave_batch_inverse by exact Hx. reflexivity.
    + exact Hn.
    + intros E. apply map_eq_nil in E. contradiction.
    + apply interleave_batch_length, Hx.
Qed.

Lemma channel_shuffle_inverse_witness :
  exists y, channel_shuffle [[0; 1; 2; 3; 4; 5]] 3 = Ok y
            /\ channel_shuffle y 2 = Ok [[0; 1; 2; 3; 4; 5]].
Proof.
  apply (channel_shuffle_inverse 3 2 [[0; 1; 2; 3; 4; 5]]).
  - lia.
  - lia.
  - discriminate.
  - repeat constructor.
Defined.

(** X5: on a non-empty tensor, [channel_shuffle] with one group returns
    its input, and so does [channel_shuffle] with as many groups as there
    are channels, when there is at least one channel. *)
Theorem channel_shuffle_trivial_groups {P : Type} (x : tensor P) (c : nat) :
  x <> [] ->
  channel_shuffle x 1 = Ok x
  /\ (0 < c -> Forall (fun s => length s = c) x -> channel_shuffle x c = Ok x).
Proof.
  intros Hne. split.
  - apply channel_shuffle_ok_iff. repeat split; [lia | exact Hne | |].
    + apply Forall_forall. intros s _. apply Nat.mod_1_r.
    + clear Hne. induction x as [|s x IH]; cbn [map]; [reflexivity|].
      rewrite Nat.div_1_r, interleave_one_group. f_equal. exact IH.
  - intros Hc Hx. apply channel_shuffle_ok_iff.
    repeat split; [lia | exact Hne | |].
    + eapply Forall_impl; [|exact Hx]. intros s ->. apply Nat.Div0.mod_same.
    + clear Hne. induction Hx as [|s x Hs _ IH]; cbn [map]; [reflexivity|].
      rewrite <- IH. f_equal.
      subst c. rewrite Nat.div_same by lia. symmetry. apply interleave_all_groups.
Qed.

Lemma channel_shuffle_trivial_groups_witness :
  channel_shuffle [[0; 1; 2]] 1 = Ok [[0; 1; 2]]
  /\ (0 < 3 -> Forall (fun s => length s = 3) [[0; 1; 2]] ->
      channel_shuffle [[0; 1; 2]] 3 = Ok [[0; 1; 2]]).
Proof.
  apply (channel_shuffle_trivial_groups [[0; 1; 2]] 3). discriminate.
Defined.

(** ** [InvertedResidual]: constructor, failure modes, channels *)

Section BlockFacts.
Context {P Wt : Type} {H : Torch P Wt}.
Implicit Types (x y : tensor P) (blk : InvertedResidual.t Wt).

Lemma zip_exact_raise {A B C : Type} (f : A -> B -> C) (a : list A) (b : list B) e :
  zip_exact (fun u v => Ok (f u v)) a b = Raise e -> e = RuntimeError.
Proof.
  revert b. induction a as [|u a IH]; intros [|v b]; simpl; try discriminate.
  - intros E; injection E as <-; reflexivity.
  - intros E; injection E as <-; reflexivity.
  - destruct (zip_exact _ a b) as [zs|e'] eqn:Ez; simpl; [discriminate|].
    intros E; injection E as <-. apply (IH b Ez).
Qed.

Lemma zip_exact_app_inv (a b c : tensor P) :
  InvertedResidual._concat a b = Ok c ->
  Forall2 (fun s o => exists t, o = s ++ t) a c.
Proof.
  unfold InvertedResidual._concat. revert b c.
  induction a as [|s a IH]; intros [|t b] c; simpl; try discriminate.
  - intros E; injection E as <-. constructor.
  - destruct (zip_exact _ a b) as [zs|] eqn:Ez; simpl; [|discriminate].
    intros E; injection E as <-. constructor; eauto.
Qed.

Lemma concat_shape b c1 c2 (a a' : tensor P) :
  has_shape b c1 a -> has_shape b c2 a' ->
  exists c, InvertedResidual._concat a a' = Ok c /\ has_shape b (c1 + c2) c.
Proof.
  unfold InvertedResidual._concat, has_shape.
  revert b a'. induction a as [|s a IH]; intros b [|t a'] [Hl Hf] [Hl' Hf'];
    simpl in *; try lia.
  - exists []. repeat split; auto.
  - inversion Hf; inversion Hf'; subst.
    destruct (IH (length a) a') as (c & -> & Hc1 & Hc2); try (split; auto; lia).
    simpl. eexists. split; [reflexivity|]. split; [simpl; lia|].
    constructor; [rewrite length_app; reflexivity | exact Hc2].
Qed.

Lemma Forall2_map_left {A B C : Type} (R : B -> C -> Prop) (f : A -> B)
    (a : list A) (c : list C) :
  Forall2 R (map f a) c -> Forall2 (fun u v => R (f u) v) a c.
Proof.
  revert c. induction a as [|u a IH]; intros c Hc; inversion Hc; subst;
    constructor; auto.
Qed.

Lemma Forall2_compose {A B C : Type} (R : A -> B -> Prop) (S : B -> C -> Prop)
    (a : list A) (b : list B) (c : list C) :
  Forall2 R a b -> Forall2 S b c ->
  Forall2 (fun u w => exists v, R u v /\ S v w) a c.
Proof.
  intros Hab. revert c. induction Hab as [|u v a b Huv _ IH]; intros c Hbc;
    inversion Hbc; subst; constructor; eauto.
Qed.
End BlockFacts.

(** X6: the constructor raises [AssertionError] exactly when [stride] is
    neither 1 nor 2.  With [stride] 1 or 2 it returns exactly when
    [oup >= 2] and, for a [benchmodel] other than 1, [inp >= 1]; when it
    does not return and [oup] is not negative, it raises the [ValueError]
    of a [nn.Conv2d] whose group count is not positive.  A block it
    returns records [benchmodel] and [stride], has a first branch exactly
    when [benchmodel] is not 1, and its second branch has eight layers. *)
Theorem init_outcome {Wt : Type} (w : nat -> Wt) (inp oup stride benchmodel : Z) :
  (InvertedResidual.init w inp oup stride benchmodel = Raise AssertionError
   <-> stride <> 1%Z /\ stride <> 2%Z)
  /\ ((exists blk, InvertedResidual.init w inp oup stride benchmodel = Ok blk)
      <-> (stride = 1 \/ stride = 2)%Z /\ (2 <= oup)%Z
          /\ (benchmodel = 1 \/ 1 <= inp)%Z)
  /\ (forall e, (stride = 1 \/ stride = 2)%Z -> (0 <= oup)%Z ->
        InvertedResidual.init w inp oup stride benchmodel = Raise e ->
        e = ValueError)
  /\ (forall blk, InvertedResidual.init w inp oup stride benchmodel = Ok blk ->
        InvertedResidual.benchmodel blk = benchmodel
        /\ InvertedResidual.stride blk = stride
        /\ (InvertedResidual.banch1 blk = None <-> benchmodel = 1%Z)
        /\ length (InvertedResidual.banch2 blk) = 8).
Proof.
  split; [|split; [apply init_ok_iff|split]].
  - rewrite init_cases. cbv zeta.
    destruct (Z.eqb_spec stride 1) as [Hs1|Hs1];
      destruct (Z.eqb_spec stride 2) as [Hs2|Hs2]; cbn [orb negb].
    4: { split; auto. }
    all: split; [|intros [A1 A2]; congruence].
    all: repeat match goal with
         | |- (if ?c then _ else _) = _ -> _ => destruct c; try discriminate
         end.
  - intros e Hs Ho. rewrite init_cases. cbv zeta.
    destruct (half_sign oup) as (Hn & _ & _).
    assert (Hc : negb ((stride =? 1) || (stride =? 2))%Z = false)
      by (destruct Hs; subst; reflexivity).
    rewrite Hc.
    destruct (Z.ltb_spec (oup / 2) 0) as [Hlt|_]; [lia|].
    repeat match goal with
    | |- (if ?c then _ else _) = _ -> _ => destruct c; try discriminate
    end.
    all: intros E; injection E as <-; reflexivity.
  - intros blk Hinit.
    destruct (init_ok_inv w inp oup stride benchmodel blk Hinit)
      as (_ & A & B & C & D).
    auto.
Qed.

(** X7: when [forward] of a constructed block raises, either [benchmodel]
    is neither 1 nor 2 and the error is [UnboundLocalError], or the error
    was raised by one of the block's two [nn.Sequential] branches, or it
    is the [RuntimeError] of [torch.cat] or of a [view]. *)
Theorem forward_failure_modes {P Wt : Type} {H : Torch P Wt}
    (w : nat -> Wt) (inp oup stride benchmodel : Z)
    (blk : InvertedResidual.t Wt) (x : tensor P) (e : exn) :
  InvertedResidual.init w inp oup stride benchmodel = Ok blk ->
  InvertedResidual.forward blk x = Raise e ->
  (benchmodel <> 1%Z /\ benchmodel <> 2%Z /\ e = UnboundLocalError)
  \/ (exists ls x', (InvertedResidual.banch1 blk = Some ls
                     \/ InvertedResidual.banch2 blk = ls)
                    /\ nn_sequential ls x' = Raise e)
  \/ e = RuntimeError.
Proof.
  intros Hinit.
  destruct (init_ok_inv w inp oup stride benchmodel blk Hinit)
    as (_ & Hbm & _ & Hb1 & _). clear Hinit.
  unfold InvertedResidual.forward. rewrite Hbm.
  destruct (Z.eqb_spec 1 benchmodel) as [E1|E1].
  - destruct (nn_sequential (InvertedResidual.banch2 blk) _) as [y|e1] eqn:Ey;
      simpl.
    + destruct (InvertedResidual._concat _ y) as [c|e2] eqn:Ec; simpl.
      * intros Esh. right; right.
        apply channel_shuffle_raise_iff in Esh.
        destruct Esh as [[H0 _]|(_ & _ & ->)]; [discriminate | reflexivity].
      * intros E; injection E as <-. right; right.
        apply (zip_exact_raise _ _ _ _ Ec).
    + intros E; injection E as <-. right; left. eauto.
  - destruct (Z.eqb_spec 2 benchmodel) as [E2|E2].
    + destruct (InvertedResidual.banch1 blk) as [b1|] eqn:Eb1.
      * destruct (nn_sequential b1 x) as [y1|e1] eqn:Ey1; simpl;
          [|intros E; injection E as <-; right; left; eauto].
        destruct (nn_sequential (InvertedResidual.banch2 blk) x) as [y2|e2]
          eqn:Ey2; simpl;
          [|intros E; injection E as <-; right; left; eauto].
        destruct (InvertedResidual._concat y1 y2) as [c|e3] eqn:Ec; simpl.
        -- intros Esh. right; right.
           apply channel_shuffle_raise_iff in Esh.
           destruct Esh as [[H0 _]|(_ & _ & ->)]; [discriminate | reflexivity].
        -- intros E; injection E as <-. right; right.
           apply (zip_exact_raise _ _ _ _ Ec).
      * exfalso. apply E1. symmetry. apply Hb1. reflexivity.
    + simpl. intros E; injection E as <-. left. repeat split; congruence.
Qed.

Lemma forward_failure_modes_witness :
  exists blk,
    InvertedResidual.init (fun _ => tt) 3 12 1 2 = Ok blk
    /\ InvertedResidual.forward (H := shape_torch) blk [[tt]]
       = Raise RuntimeError
    /\ ((2 <> 1 /\ 2 <> 2 /\ RuntimeError = UnboundLocalError)%Z
        \/ (exists ls x', (InvertedResidual.banch1 blk = Some ls
                           \/ InvertedResidual.banch2 blk = ls)
                          /\ nn_sequential (H := shape_torch) ls x'
                             = Raise RuntimeError)
        \/ RuntimeError = RuntimeError).
Proof.
  eexists. split; [reflexivity|]. split; [reflexivity|].
  eapply (forward_failure_modes (H := shape_torch) (fun _ => tt) 3 12 1 2 _ [[tt]]);
    reflexivity.
Defined.

(** X8: in variant 1 the first half of the input channels passes through
    unchanged: whenever [forward] returns, channel [2 * i] of each result
    sample is channel [i] of the input sample, for every [i] below half
    the input's channel count. *)
Theorem forward_variant_1_passes_first_half {P Wt : Type} {H : Torch P Wt}
    (blk : InvertedResidual.t Wt) (x out : tensor P) :
  InvertedResidual.benchmodel blk = 1%Z ->
  InvertedResidual.forward blk x = Ok out ->
  Forall2 (fun s o =>
             forall i, i < length s / 2 -> 2 * i < length o ->
               nth_error o (2 * i) = nth_error s i)
    x out.
Proof.
  intros Hbm Esh. unfold InvertedResidual.forward in Esh.
  rewrite Hbm in Esh. change (1 =? 1)%Z with true in Esh.
  cbv beta iota zeta in Esh.
  destruct (nn_sequential _ _) as [y|] eqn:Ey; cbn [bind] in Esh;
    [|discriminate].
  destruct (InvertedResidual._concat _ y) as [c|] eqn:Ec; cbn [bind] in Esh;
    [|discriminate].
  apply zip_exact_app_inv, Forall2_map_left in Ec.
  apply channel_shuffle_ok_iff in Esh. destruct Esh as (_ & _ & Hall & ->).
  assert (Hco : Forall2 (fun s o => length s mod 2 = 0 /\ length o = length s
                           /\ forall i k, i < length s / 2 -> k < 2 ->
                                nth_error o (i * 2 + k)
                                = nth_error s (k * (length s / 2) + i))
                  c (map (fun s => interleave 2 (length s / 2) s) c)).
  { clear Ec Ey.
    induction Hall as [|s c Hs _ IH]; cbn [map]; constructor; [|exact IH].
    assert (Hl : length s = 2 * (length s / 2))
      by (apply Nat.Div0.div_exact; exact Hs).
    repeat split; [exact Hs | |].
    - rewrite (interleave_length 2 (length s / 2) s Hl). lia.
    - intros i k Hi Hk. apply interleave_nth; assumption. }
  pose proof (Forall2_compose _ _ _ _ _ Ec Hco) as Hxo.
  eapply Forall2_impl; [|exact Hxo].
  intros s o (cs & (t & Hcs) & Hm & Hlen & Hi) i His Hio.
  assert (Hdiv : length cs = 2 * (length cs / 2))
    by (apply Nat.Div0.div_exact; exact Hm).
  assert (Hic : i < length cs / 2) by lia.
  specialize (Hi i 0 Hic ltac:(lia)).
  rewrite Nat.add_0_r, Nat.mul_0_l, Nat.add_0_l in Hi.
  rewrite (Nat.mul_comm 2 i), Hi. subst cs.
  assert (Hhalf : length s / 2 <= length s)
    by (apply Nat.Div0.div_le_upper_bound; lia).
  rewrite nth_error_app1 by (rewrite length_firstn; lia).
  rewrite nth_error_firstn.
  destruct (Nat.ltb_spec i (length s / 2)); [reflexivity | lia].
Qed.

Lemma forward_variant_1_passes_first_half_witness :
  exists blk,
    InvertedResidual.init (fun _ => tt) 4 4 1 1 = Ok blk
    /\ InvertedResidual.forward (H := identity_torch nat) blk [[10; 11; 12; 13]]
       = Ok [[10; 12; 11; 13]]
    /\ Forall2 (fun s o =>
                  forall i, i < length s / 2 -> 2 * i < length o ->
                    nth_error o (2 * i) = nth_error s i)
         [[10; 11; 12; 13]] [[10; 12; 11; 13]].
Proof.
  eexists. split; [reflexivity|].
  match goal with
  | |- InvertedResidual.forward ?b ?x = Ok ?o /\ _ =>
      split; [reflexivity
             | apply (forward_variant_1_passes_first_half
                        (H := identity_torch nat) b x o); reflexivity]
  end.
Defined.

(** ** Channel counts through the blocks *)

Lemma all_channels_spec {P : Type} (c : nat) (x : tensor P) :
  all_channels c x = true <-> Forall (fun s => length s = c) x.
Proof.
  unfold all_channels. rewrite forallb_forall, Forall_forall.
  split; intros Hx s Hs; specialize (Hx s Hs); apply Nat.eqb_eq; exact Hx.
Qed.

Section Constructed.
Context {Wt : Type}.

Lemma new_Conv2d_inv (i o k s p d g : Z) (b : bool) (w : Wt) (l : layer Wt) :
  new_Conv2d i o k s p d g b w = Ok l -> l = Conv2d i o k s p d g b w.
Proof.
  unfold new_Conv2d.
  repeat match goal with
  | |- (if ?c then _ else _) = _ -> _ => destruct c; try discriminate
  end.
  intros E; injection E as <-; reflexivity.
Qed.

Lemma new_BatchNorm2d_inv (n : Z) (w : Wt) (l : layer Wt) :
  new_BatchNorm2d n w = Ok l -> l = BatchNorm2d n w.
Proof.
  unfold new_BatchNorm2d. destruct (n <? 0)%Z; [discriminate|].
  intros E; injection E as <-; reflexivity.
Qed.

Lemma banch2_typed (w0 w1 w2 w3 w4 w5 : Wt) (a c stride : Z) :
  (0 < a)%Z -> (0 < c)%Z ->
  typed_seq
    [ Conv2d a c 1 1 0 1 1 false w0;
      BatchNorm2d c w1;
      ReLU true;
      Conv2d c c 3 stride 1 1 c false w2;
      BatchNorm2d c w3;
      Conv2d c c 1 1 0 1 1 false w4;
      BatchNorm2d c w5;
      ReLU true ]
    (Z.to_nat a) (Z.to_nat c).
Proof.
  intros Ha Hc.
  eapply typed_conv;
    [apply new_Conv2d_ok; rewrite ?Z.mod_1_r; lia|].
  eapply typed_bn; [apply new_BatchNorm2d_ok; lia|].
  apply typed_relu.
  eapply typed_conv;
    [apply new_Conv2d_ok; rewrite ?Z.mod_same; lia|].
  eapply typed_bn; [apply new_BatchNorm2d_ok; lia|].
  eapply typed_conv;
    [apply new_Conv2d_ok; rewrite ?Z.mod_1_r; lia|].
  eapply typed_bn; [apply new_BatchNorm2d_ok; lia|].
  apply typed_relu, typed_nil.
Qed.

Lemma banch1_typed (w : nat -> Wt) (a c stride : Z) :
  (0 < a)%Z -> (0 < c)%Z ->
  typed_seq
    [ Conv2d a a 3 stride 1 1 a false (w 0%nat);
      BatchNorm2d a (w 1%nat);
      Conv2d a c 1 1 0 1 1 false (w 2%nat);
      BatchNorm2d c (w 3%nat);
      ReLU true ]
    (Z.to_nat a) (Z.to_nat c).
Proof.
  intros Ha Hc.
  eapply typed_conv;
    [apply new_Conv2d_ok; rewrite ?Z.mod_same; lia|].
  eapply typed_bn; [apply new_BatchNorm2d_ok; lia|].
  eapply typed_conv;
    [apply new_Conv2d_ok; rewrite ?Z.mod_1_r; lia|].
  eapply typed_bn; [apply new_BatchNorm2d_ok; lia|].
  apply typed_relu, typed_nil.
Qed.

Lemma conv_bn_inv (w : nat -> Wt) (inp oup k stride pad : Z) (ls : list (layer Wt)) :
  new_Sequential
    [ new_Conv2d inp oup k stride pad 1 1 false (w 0%nat);
      new_BatchNorm2d oup (w 1%nat);
      Ok (ReLU true) ] = Ok ls ->
  typed_seq ls (Z.to_nat inp) (Z.to_nat oup)
  /\ exists l ls', ls = l :: ls'
                   /\ new_Conv2d inp oup k stride pad 1 1 false (w 0%nat) = Ok l.
Proof.
  unfold new_Sequential. cbn [mapM].
  destruct (new_Conv2d _ _ _ _ _ _ _ _ _) as [l0|] eqn:E0; cbn [bind];
    [|discriminate].
  destruct (new_BatchNorm2d _ _) as [l1|] eqn:E1; cbn [bind]; [|discriminate].
  intros E; injection E as <-. split; [|eauto].
  eapply typed_conv; [exact E0|].
  eapply typed_bn; [exact E1|].
  apply typed_relu, typed_nil.
Qed.
End Constructed.

Lemma shape_torch_typed : channel_typed shape_torch.
Proof.
  constructor.
  - intros inp oup k s p d g bias w l x y Hl Ha.
    apply new_Conv2d_inv in Hl. subst l. simpl in Ha.
    destruct (all_channels (Z.to_nat inp) x) eqn:E; [|discriminate].
    injection Ha as <-. apply all_channels_spec in E.
    split; split; auto; [apply length_map|].
    apply Forall_map, Forall_forall. intros u _. apply repeat_length.
  - intros n w l x y Hl Ha.
    apply new_BatchNorm2d_inv in Hl. subst l. simpl in Ha.
    destruct (all_channels (Z.to_nat n) x) eqn:E; [|discriminate].
    injection Ha as <-. apply all_channels_spec in E.
    split; split; auto.
  - intros i x y Ha. simpl in Ha. injection Ha as <-.
    induction x; constructor; auto.
Qed.

Section Wiring.
Context {P Wt : Type} {H : Torch P Wt}.
Hypothesis torch_typed : channel_typed H.

Lemma nn_sequential_typed (ls : list (layer Wt)) (c c' : nat) (x y : tensor P) :
  typed_seq ls c c' -> has_shape (length x) c x ->
  nn_sequential ls x = Ok y -> has_shape (length x) c' y.
Proof.
  intros Hty. revert x.
  induction Hty as [c|inp oup k s p d g bias w l ls c' Hl _ IH
                   |n w l ls c' Hl _ IH|i ls c c' _ IH]; intros x Hx; simpl.
  - intros E; injection E as <-. exact Hx.
  - destruct (apply_layer l x) as [t|] eqn:Et; cbn [bind]; [|discriminate].
    destruct (conv_typed H torch_typed _ _ _ _ _ _ _ _ _ _ _ _ Hl Et)
      as [_ [Ht1 Ht2]].
    intros E. rewrite <- Ht1. apply IH; [|exact E].
    split; [reflexivity | exact Ht2].
  - destruct (apply_layer l x) as [t|] eqn:Et; cbn [bind]; [|discriminate].
    destruct (bn_typed H torch_typed _ _ _ _ _ Hl Et) as [_ [Ht1 Ht2]].
    intros E. rewrite <- Ht1. apply IH; [|exact E].
    split; [reflexivity | exact Ht2].
  - destruct (apply_layer (ReLU i) x) as [t|] eqn:Et; cbn [bind];
      [|discriminate].
    pose proof (relu_typed H torch_typed _ _ _ Et) as Hr.
    assert (Ht : has_shape (length x) c t).
    { destruct Hx as [_ Hx]. split; [symmetry; eapply Forall2_length, Hr|].
      clear - Hr Hx. induction Hr as [|u v a b Huv _ IH']; constructor.
      - inversion Hx; subst. congruence.
      - apply IH'. inversion Hx; assumption. }
    intros E. destruct Ht as [Ht1 Ht2]. rewrite <- Ht1. apply IH; [|exact E].
    split; [reflexivity | exact Ht2].
Qed.

(** A sequence that starts with a convolution returns only on samples of
    the convolution's input channel count. *)
Lemma conv_head_typed (inp oup k s p d g : Z) (bias : bool) (w : Wt)
    (l : layer Wt) (ls : list (layer Wt)) (x y : tensor P) :
  new_Conv2d inp oup k s p d g bias w = Ok l ->
  nn_sequential (l :: ls) x = Ok y ->
  has_shape (length x) (Z.to_nat inp) x.
Proof.
  intros Hl. simpl.
  destruct (apply_layer l x) as [t|] eqn:Et; cbn [bind]; [|discriminate].
  intros _. apply (conv_typed H torch_typed _ _ _ _ _ _ _ _ _ _ _ _ Hl Et).
Qed.

Lemma concat_shape_inv b c1 c2 (a a' c : tensor P) :
  has_shape b c1 a -> has_shape b c2 a' ->
  InvertedResidual._concat a a' = Ok c -> has_shape b (c1 + c2) c.
Proof.
  intros Ha Ha' E.
  destruct (concat_shape b c1 c2 a a' Ha Ha') as (c0 & E0 & Hc).
  rewrite E in E0. injection E0 as <-. exact Hc.
Qed.

Lemma shuffle_2_shape_inv b n (x y : tensor P) :
  has_shape b n x -> channel_shuffle x 2 = Ok y -> has_shape b n y.
Proof.
  intros [Hl Hf] E. apply channel_shuffle_ok_iff in E.
  destruct E as (_ & Hne & Hm & ->).
  split; [rewrite length_map; exact Hl|].
  apply Forall_map, Forall_forall. intros s Hs.
  rewrite Forall_forall in Hf, Hm.
  pose proof (Hf s Hs) as Hls. pose proof (Hm s Hs) as Hms.
  rewrite interleave_length; [|apply Nat.Div0.div_exact; exact Hms].
  apply Nat.Div0.div_exact in Hms. lia.
Qed.

Lemma variant_2_shape (w : nat -> Wt) (inp oup stride : Z)
    (blk : InvertedResidual.t Wt) (x out : tensor P) :
  InvertedResidual.init w inp oup stride 2 = Ok blk ->
  InvertedResidual.forward blk x = Ok out ->
  has_shape (length x) (Z.to_nat inp) x
  /\ has_shape (length x) (2 * Z.to_nat (oup / 2)) out.
Proof.
  rewrite init_cases. cbv zeta.
  destruct (negb _); [discriminate|].
  change (2 =? 1)%Z with false. cbv iota.
  destruct (Z.leb_spec inp 0) as [|Hi]; [discriminate|].
  destruct (Z.ltb_spec (oup / 2) 0) as [|Hc]; [discriminate|].
  destruct (Z.eqb_spec (oup / 2) 0) as [|Hc0]; [discriminate|].
  assert (Hc' : (0 < oup / 2)%Z) by lia.
  intros E; injection E as <-.
  unfold InvertedResidual.forward.
  cbn [InvertedResidual.benchmodel InvertedResidual.banch1
       InvertedResidual.banch2].
  change (1 =? 2)%Z with false. change (2 =? 2)%Z with true. cbv iota.
  pose proof (banch1_typed w inp (oup / 2) stride Hi Hc') as T1.
  pose proof (banch2_typed (w 4) (w 5) (w 6) (w 7) (w 8) (w 9)
                inp (oup / 2) stride Hi Hc') as T2.
  destruct (nn_sequential _ x) as [y1|] eqn:E1; cbn [bind]; [|discriminate].
  destruct (nn_sequential _ x) as [y2|] eqn:E2 in |- *; cbn [bind];
    [|discriminate].
  destruct (InvertedResidual._concat y1 y2) as [c|] eqn:Ec; cbn [bind];
    [|discriminate].
  intros Eo.
  assert (Hx : has_shape (length x) (Z.to_nat inp) x).
  { eapply conv_head_typed; [|exact E1].
    apply new_Conv2d_ok; rewrite ?Z.mod_same; lia. }
  split; [exact Hx|].
  pose proof (nn_sequential_typed _ _ _ x y1 T1 Hx E1) as Hy1.
  pose proof (nn_sequential_typed _ _ _ x y2 T2 Hx E2) as Hy2.
  pose proof (concat_shape_inv _ _ _ _ _ _ Hy1 Hy2 Ec) as Hcs.
  replace (2 * Z.to_nat (oup / 2)) with (Z.to_nat (oup / 2) + Z.to_nat (oup / 2))
    by lia.
  apply (shuffle_2_shape_inv _ _ c out Hcs Eo).
Qed.

Lemma variant_1_shape (w : nat -> Wt) (inp oup stride : Z)
    (blk : InvertedResidual.t Wt) (x out : tensor P) :
  InvertedResidual.init w inp oup stride 1 = Ok blk ->
  InvertedResidual.forward blk x = Ok out ->
  has_shape (length x) (2 * Z.to_nat (oup / 2)) x
  /\ has_shape (length x) (2 * Z.to_nat (oup / 2)) out.
Proof.
  rewrite init_cases. cbv zeta.
  destruct (negb _); [discriminate|].
  change (1 =? 1)%Z with true. cbv iota.
  destruct (Z.ltb_spec (oup / 2) 0) as [|Hc]; [discriminate|].
  destruct (Z.eqb_spec (oup / 2) 0) as [|Hc0]; [discriminate|].
  assert (Hc' : (0 < oup / 2)%Z) by lia.
  intros E; injection E as <-.
  unfold InvertedResidual.forward.
  cbn [InvertedResidual.benchmodel InvertedResidual.banch1
       InvertedResidual.banch2].
  change (1 =? 1)%Z with true. cbv iota.
  pose proof (banch2_typed (w 0) (w 1) (w 2) (w 3) (w 4) (w 5)
                (oup / 2) (oup / 2) stride Hc' Hc') as T2.
  set (n := Z.to_nat (oup / 2)) in *.
  set (x1 := map (fun s => firstn (length s / 2) s) x).
  set (x2 := map (fun s => skipn (length s / 2) s) x).
  destruct (nn_sequential _ x2) as [y|] eqn:Ey; cbn [bind]; [|discriminate].
  destruct (InvertedResidual._concat x1 y) as [c|] eqn:Ec; cbn [bind];
    [|discriminate].
  intros Eo.
  assert (Hx2 : has_shape (length x2) n x2).
  { eapply conv_head_typed; [|exact Ey].
    apply new_Conv2d_ok; rewrite ?Z.mod_1_r; lia. }
  pose proof (nn_sequential_typed _ _ _ x2 y T2 Hx2 Ey) as Hy.
  assert (Hlen : length x2 = length x) by (unfold x2; apply length_map).
  rewrite Hlen in Hx2, Hy.
  (* per sample: the concatenation has [|s| / 2 + n] channels *)
  assert (Hcs : Forall2 (fun s o => length o = length s / 2 + n) x c).
  { destruct Hy as [Hyl Hyf]. unfold InvertedResidual._concat, x1 in Ec.
    clear - Ec Hyl Hyf. revert y c Ec Hyl Hyf.
    induction x as [|s x IH]; intros [|t y] c Ec Hyl Hyf;
      cbn [map zip_exact bind length] in *; try discriminate.
    - injection Ec as <-. constructor.
    - destruct (zip_exact _ _ y) as [zs|] eqn:Ez; cbn [bind] in Ec;
        [|discriminate].
      injection Ec as <-. inversion Hyf as [|? ? Ht Hyf']; subst.
      constructor; [|apply (IH y zs Ez); [lia | assumption]].
      rewrite length_app, length_firstn.
      pose proof (Nat.Div0.div_le_upper_bound (length s) 2 (length s)
                    ltac:(lia)).
      change (fst (Nat.divmod (length s) 1 0 1)) with (length s / 2). lia. }
  apply channel_shuffle_ok_iff in Eo.
  destruct Eo as (_ & _ & Hm & ->).
  assert (Hs : Forall (fun s => length s = 2 * n) x).
  { destruct Hx2 as [_ Hx2f]. unfold x2 in Hx2f. rewrite Forall_map in Hx2f.
    clear - Hx2f Hcs Hm. revert Hx2f Hm.
    induction Hcs as [|s o x c Hso _ IH]; intros Hx2f Hm; constructor.
    - inversion Hx2f; inversion Hm; subst.
      match goal with Hk : length (skipn _ s) = n |- _ =>
        rewrite length_skipn in Hk end.
      match goal with Hk : length o mod 2 = 0 |- _ =>
        rewrite Hso in Hk; apply Nat.Lcm0.mod_divide in Hk;
        destruct Hk as [q Hq] end.
      pose proof (Nat.div_mod_eq (length s) 2).
      pose proof (Nat.mod_upper_bound (length s) 2 ltac:(lia)). lia.
    - inversion Hx2f; inversion Hm; subst. apply IH; assumption. }
  split; [split; [reflexivity | exact Hs]|].
  split; [rewrite length_map; eapply eq_sym, Forall2_length, Hcs|].
  apply Forall_map.
  clear - Hcs Hs Hm. revert Hs Hm.
  induction Hcs as [|s o x c Hso _ IH]; intros Hs Hm; constructor.
  - inversion Hs; inversion Hm; subst.
    match goal with Hk : length o mod 2 = 0 |- _ => rename Hk into Ho end.
    rewrite interleave_length; [|apply Nat.Div0.div_exact; exact Ho].
    apply Nat.Div0.div_exact in Ho.
    match goal with Hk : length s = 2 * n |- _ => rewrite Hk in Hso end.
    replace (2 * n / 2) with n in Hso
      by (rewrite Nat.mul_comm, Nat.div_mul; lia).
    lia.
  - inversion Hs; inversion Hm; subst. apply IH; assumption.
Qed.

Lemma RFDet_init_features (w : nat -> Wt) (score_com scale_com : R)
    (nms_thresh : float) (nms_ksize topk gauss_ksize : nat) (gauss_sigma : float)
    (ksize padding dilation : Z) (scales : list R) (self : RFDet.t Wt) :
  RFDet.init w score_com scale_com nms_thresh nms_ksize topk gauss_ksize
    gauss_sigma ksize padding dilation scales = Ok self ->
  exists f1 f2,
    InvertedResidual.init w 3 12 1 2 = Ok f1
    /\ InvertedResidual.init (fun i => w (10 + i)%nat) 12 12 1 1 = Ok f2
    /\ RFDet.features self = [f1; f2].
Proof.
  unfold RFDet.init. intros Hinit.
  destruct (InvertedResidual.init w 3 12 1 2) as [f1|] eqn:E1;
    cbn [bind] in Hinit; [|discriminate].
  destruct (InvertedResidual.init _ 12 12 1 1) as [f2|] eqn:E2;
    cbn [bind] in Hinit; [|discriminate].
  repeat match type of Hinit with
  | bind ?r _ = Ok _ => destruct r; cbn [bind] in Hinit; [|discriminate]
  end.
  injection Hinit as <-. exists f1, f2. auto.
Qed.

Lemma backbone_shape (w : nat -> Wt) (score_com scale_com : R)
    (nms_thresh : float) (nms_ksize topk gauss_ksize : nat) (gauss_sigma : float)
    (ksize padding dilation : Z) (scales : list R) (self : RFDet.t Wt)
    (x fm : tensor P) :
  RFDet.init w score_com scale_com nms_thresh nms_ksize topk gauss_ksize
    gauss_sigma ksize padding dilation scales = Ok self ->
  RFDet.run_features (RFDet.features self) x = Ok fm ->
  has_shape (length x) 3 x /\ has_shape (length x) 12 fm.
Proof.
  intros Hinit.
  destruct (RFDet_init_features _ _ _ _ _ _ _ _ _ _ _ _ _ Hinit)
    as (f1 & f2 & E1 & E2 & ->).
  cbn [RFDet.run_features].
  destruct (InvertedResidual.forward f1 x) as [y|] eqn:Ef1; cbn [bind];
    [|discriminate].
  destruct (InvertedResidual.forward f2 y) as [z|] eqn:Ef2; cbn [bind];
    [|discriminate].
  intros E; injection E as <-.
  destruct (variant_2_shape w 3 12 1 f1 x y E1 Ef1) as [Hx Hy].
  destruct (variant_1_shape _ 12 12 1 f2 y z E2 Ef2) as [_ Hz].
  split; [exact Hx|].
  destruct Hy as [Hyl _]. rewrite Hyl in Hz. exact Hz.
Qed.
End Wiring.

(** X9: under the channel checks of torch's layers, whenever [forward]
    of a variant-2 block returns, every sample of its input has [inp]
    channels and the result is a batch of the same size whose samples
    have [2 * (oup // 2)] channels: [oup] channels only when [oup] is
    even. *)
Theorem block_variant_2_channels {P Wt : Type} {H : Torch P Wt}
    (w : nat -> Wt) (inp oup stride : Z)
    (blk : InvertedResidual.t Wt) (x out : tensor P) :
  channel_typed H ->
  InvertedResidual.init w inp oup stride 2 = Ok blk ->
  InvertedResidual.forward blk x = Ok out ->
  has_shape (length x) (Z.to_nat inp) x
  /\ has_shape (length x) (2 * Z.to_nat (oup / 2)) out.
Proof.
  intros HT. apply (variant_2_shape HT).
Qed.

Lemma block_variant_2_channels_witness :
  exists blk out,
    InvertedResidual.init (fun _ => tt) 3 13 2 2 = Ok blk
    /\ InvertedResidual.forward (H := shape_torch) blk [[tt; tt; tt]] = Ok out
    /\ has_shape 1 (Z.to_nat 3) [[tt; tt; tt]]
    /\ has_shape 1 (2 * Z.to_nat (13 / 2)) out.
Proof.
  eexists. eexists. split; [reflexivity|]. split; [reflexivity|].
  eapply (block_variant_2_channels (H := shape_torch) (fun _ => tt) 3 13 2 _
            [[tt; tt; tt]]).
  - exact shape_torch_typed.
  - reflexivity.
  - reflexivity.
Defined.

(** X10: under the channel checks of torch's layers, whenever [forward]
    of a variant-1 block returns, every sample of its input has
    [2 * (oup // 2)] channels, whatever the block's [inp] argument is,
    and the result has the shape of the input. *)
Theorem block_variant_1_channels {P Wt : Type} {H : Torch P Wt}
    (w : nat -> Wt) (inp oup stride : Z)
    (blk : InvertedResidual.t Wt) (x out : tensor P) :
  channel_typed H ->
  InvertedResidual.init w inp oup stride 1 = Ok blk ->
  InvertedResidual.forward blk x = Ok out ->
  has_shape (length x) (2 * Z.to_nat (oup / 2)) x
  /\ has_shape (length x) (2 * Z.to_nat (oup / 2)) out.
Proof.
  intros HT. apply (variant_1_shape HT).
Qed.

Lemma block_variant_1_channels_witness :
  exists blk out,
    InvertedResidual.init (fun _ => tt) 99 4 1 1 = Ok blk
    /\ InvertedResidual.forward (H := shape_torch) blk [[tt; tt; tt; tt]] = Ok out
    /\ has_shape 1 (2 * Z.to_nat (4 / 2)) [[tt; tt; tt; tt]]
    /\ has_shape 1 (2 * Z.to_nat (4 / 2)) out.
Proof.
  eexists. eexists. split; [reflexivity|]. split; [reflexivity|].
  eapply (block_variant_1_channels (H := shape_torch) (fun _ => tt) 99 4 1 _
            [[tt; tt; tt; tt]]).
  - exact shape_torch_typed.
  - reflexivity.
  - reflexivity.
Defined.

(** X11: under the channel checks of torch's layers, whenever the
    backbone [features] of a constructed detector returns, its input is
    a batch of 3-channel images and its result a batch of the same size
    of 12-channel feature maps. *)
Theorem backbone_channels {P Wt : Type} {H : Torch P Wt}
    (w : nat -> Wt) (score_com scale_com : R) (nms_thresh : float)
    (nms_ksize topk gauss_ksize : nat) (gauss_sigma : float)
    (ksize padding dilation : Z) (scales : list R)
    (self : RFDet.t Wt) (x fm : tensor P) :
  channel_typed H ->
  RFDet.init w score_com scale_com nms_thresh nms_ksize topk gauss_ksize
    gauss_sigma ksize padding dilation scales = Ok self ->
  RFDet.run_features (RFDet.features self) x = Ok fm ->
  has_shape (length x) 3 x /\ has_shape (length x) 12 fm.
Proof.
  intros HT. apply (backbone_shape HT).
Qed.

Lemma backbone_channels_witness :
  exists self fm,
    demo_detector = Ok self
    /\ RFDet.run_features (H := shape_torch) (RFDet.features self)
         [[tt; tt; tt]; [tt; tt; tt]] = Ok fm
    /\ has_shape 2 3 [[tt; tt; tt]; [tt; tt; tt]]
    /\ has_shape 2 12 fm.
Proof.
  eexists. eexists. split; [reflexivity|]. split; [reflexivity|].
  eapply (backbone_channels (H := shape_torch) (fun _ => tt) 3 3 0 3 1 3 0.5 3 1 1 []
            _ [[tt; tt; tt]; [tt; tt; tt]]).
  - exact shape_torch_typed.
  - reflexivity.
  - reflexivity.
Defined.

(** X12: under the channel checks of torch's layers, whenever a sequence
    built by [conv_bn] or by [conv_1x1_bn] returns, every sample of its
    input has [inp] channels and the result is a batch of the same size
    of [oup]-channel samples. *)
Theorem conv_bn_channels {P Wt : Type} {H : Torch P Wt}
    (w : nat -> Wt) (inp oup stride : Z) (ls : list (layer Wt))
    (x y : tensor P) :
  channel_typed H ->
  conv_bn w inp oup stride = Ok ls \/ conv_1x1_bn w inp oup = Ok ls ->
  nn_sequential ls x = Ok y ->
  has_shape (length x) (Z.to_nat inp) x
  /\ has_shape (length x) (Z.to_nat oup) y.
Proof.
  intros HT Hls Hy.
  assert (Hinv : typed_seq ls (Z.to_nat inp) (Z.to_nat oup)
                 /\ exists k s p l ls',
                      ls = l :: ls'
                      /\ new_Conv2d inp oup k s p 1 1 false (w 0%nat) = Ok l).
  { destruct Hls as [Hls|Hls]; apply conv_bn_inv in Hls;
      destruct Hls as (Ht & l & ls' & E1 & E2); split; eauto 8. }
  destruct Hinv as (Ht & k & s & p & l & ls' & -> & Hl).
  pose proof (conv_head_typed HT _ _ _ _ _ _ _ _ _ _ _ _ _ Hl Hy) as Hx.
  split; [exact Hx|].
  apply (nn_sequential_typed HT _ _ _ x y Ht Hx Hy).
Qed.

Lemma conv_bn_channels_witness :
  exists ls y,
    conv_bn (fun _ => tt) 3 8 2 = Ok ls
    /\ nn_sequential (H := shape_torch) ls [[tt; tt; tt]] = Ok y
    /\ has_shape 1 (Z.to_nat 3) [[tt; tt; tt]]
    /\ has_shape 1 (Z.to_nat 8) y.
Proof.
  eexists. eexists. split; [reflexivity|]. split; [reflexivity|].
  eapply (conv_bn_channels (H := shape_torch) (fun _ => tt) 3 8 2 _
            [[tt; tt; tt]]).
  - exact shape_torch_typed.
  - left. reflexivity.
  - reflexivity.
Defined.

(** ** [RFDet.process]: the smoothed map *)

Lemma clamp_range (x : float) :
  PrimFloat.ltb (clamp 0 1 x) 0 = false /\ PrimFloat.ltb 1 (clamp 0 1 x) = false.
Proof.
  unfold clamp.
  destruct (PrimFloat.ltb x 0) eqn:E0; [split; reflexivity|].
  destruct (PrimFloat.ltb 1 x) eqn:E1; [split; reflexivity|].
  split; assumption.
Qed.

(** X13: whenever [process] returns, no value of its first output, the
    smoothed score map, is below 0 and none is above 1. *)
Theorem process_smoothed_in_unit_range {Wt : Type} {H : ImageUtils}
    (self : RFDet.t Wt) (x : smap) (a : smap) (b : bmap) (c : smap) :
  RFDet.process self x = Ok (a, b, c) ->
  Forall3 (fun v => PrimFloat.ltb v 0 = false /\ PrimFloat.ltb 1 v = false) a.
Proof.
  unfold RFDet.process.
  destruct (zip3d _ (filter_border x) _) as [y|e]; simpl; [|discriminate].
  destruct (zip3d _ (topk_map y _) y) as [z|e]; simpl; [|discriminate].
  intros E. injection E as <- _ _.
  apply (map3_Forall3 _ _ (fun _ => True)).
  - intros v _. apply clamp_range.
  - unfold Forall3. apply Forall_forall. intros img _.
    apply Forall_forall. intros row _. apply Forall_forall. intros v _. exact I.
Qed.

Lemma process_smoothed_in_unit_range_witness :
  exists d a b c,
    demo_detector = Ok d
    /\ RFDet.process (H := demo_utils) d demo_scores = Ok (a, b, c)
    /\ Forall3 (fun v => PrimFloat.ltb v 0 = false /\ PrimFloat.ltb 1 v = false) a.
Proof.
  eexists _, _, _, _.
  split; [reflexivity|].
  match goal with
  | |- RFDet.process ?d ?x = _ /\ _ =>
      split; [vm_compute; reflexivity
             | eapply (process_smoothed_in_unit_range (H := demo_utils) d x);
               vm_compute; reflexivity]
  end.
Defined.


Section FloatSymmetry.

Lemma binary_round_aux_opp (mx ex : Z) (lx : location) :
  binary_round_aux prec emax true mx ex lx
  = SFopp (binary_round_aux prec emax false mx ex lx).
Proof.
  unfold binary_round_aux.
  destruct (shr_fexp prec emax mx ex lx) as [mrs' e'].
  destruct (shr_fexp prec emax _ e' loc_Exact) as [mrs'' e''].
  destruct (shr_m mrs'') as [|m|m]; try reflexivity.
  destruct (e'' <=? emax - prec)%Z; reflexivity.
Qed.

Lemma binary_normalize_opp (z e : Z) :
  binary_normalize prec emax (- z) e false
  = SFopp (binary_normalize prec emax z e false)
  \/ binary_normalize prec emax (- z) e false
     = binary_normalize prec emax z e false.
Proof.
  destruct z as [|m|m]; simpl.
  - right; reflexivity.
  - left. unfold binary_round.
    destruct (shl_align m e _) as [mz ez]. apply binary_round_aux_opp.
  - left. unfold binary_round.
    destruct (shl_align m e _) as [mz ez].
    rewrite binary_round_aux_opp.
    destruct (binary_round_aux prec emax false (Z.pos mz) ez loc_Exact)
      as [s|s| |s m' e']; simpl; rewrite ?negb_involutive; reflexivity.
Qed.

Lemma SFsub_swap (x y : spec_float) :
  SF64sub y x = SFopp (SF64sub x y) \/ SF64sub y x = SF64sub x y.
Proof.
  unfold SF64sub.
  destruct x as [sx|sx| |sx mx ex], y as [sy|sy| |sy my ey]; simpl;
    try (destruct sx, sy; simpl; auto; fail);
    try (destruct sx; simpl; auto; fail);
    try (destruct sy; simpl; auto; fail);
    try (left; rewrite ?negb_involutive; reflexivity);
    auto.
  rewrite (Z.min_comm ey ex).
  set (ez := Z.min ex ey).
  set (A := cond_Zopp sx (Z.pos (fst (shl_align mx ex ez)))).
  set (B := cond_Zopp sy (Z.pos (fst (shl_align my ey ez)))).
  replace (B - A)%Z with (- (A - B))%Z by lia.
  apply binary_normalize_opp.
Qed.

Lemma SFmul_opp_opp (r : spec_float) :
  SF64mul (SFopp r) (SFopp r) = SF64mul r r.
Proof.
  destruct r as [s|s| |s m e]; simpl; try reflexivity;
    destruct s; reflexivity.
Qed.

(** The squared difference does not depend on the order of its operands. *)
Lemma sq_diff_sym (a b : float) :
  ((a - b) * (a - b) = (b - a) * (b - a))%float.
Proof.
  apply Prim2SF_inj.
  rewrite !FloatAxioms.mul_spec, !FloatAxioms.sub_spec.
  destruct (SFsub_swap (Prim2SF a) (Prim2SF b)) as [E|E]; rewrite E.
  - symmetry. apply SFmul_opp_opp.
  - reflexivity.
Qed.
End FloatSymmetry.

Section FloatSums.
Local Open Scope float_scope.

Lemma finite_exponent_bound (x : float) s m e :
  Prim2SF x = S754_finite s m e -> (emin <= e)%Z.
Proof.
  intros E. pose proof (Prim2SF_valid x) as Hv. rewrite E in Hv.
  unfold SpecFloat.valid_binary, bounded, canonical_mantissa in Hv.
  apply andb_prop in Hv. destruct Hv as [Hc _].
  apply Z.eqb_eq in Hc. unfold fexp in Hc. lia.
Qed.

Lemma add_nonneg (x y : float) :
  sf_nonneg (Prim2SF x) -> sf_nonneg (Prim2SF y) ->
  sf_nonneg (Prim2SF (x + y))
  /\ (sf_pos (Prim2SF x) \/ sf_pos (Prim2SF y) -> sf_pos (Prim2SF (x + y))).
Proof.
  rewrite FloatAxioms.add_spec. unfold SF64add. intros Hx Hy.
  destruct (Prim2SF x) as [sx|sx| |sx mx ex] eqn:Ex;
    destruct (Prim2SF y) as [sy|sy| |sy my ey] eqn:Ey;
    try destruct sx; try destruct sy; simpl in Hx, Hy; try contradiction.
  1-8: simpl; tauto.
  pose proof (finite_exponent_bound x _ _ _ Ex).
  pose proof (finite_exponent_bound y _ _ _ Ey).
  assert (Hp : sf_pos (binary_normalize prec emax
                         (Z.pos (fst (shl_align mx ex (Z.min ex ey)))
                          + Z.pos (fst (shl_align my ey (Z.min ex ey))))
                         (Z.min ex ey) false)).
  { simpl. apply (binary_round_pos prec emax eq_refl). lia. }
  unfold SFadd, cond_Zopp.
  split; [|intros _; exact Hp].
  destruct (binary_normalize _ _ _ _ _) as [s|s| |s m e]; try destruct s;
    simpl in *; tauto.
Qed.

Lemma sum_f_nonneg (l : list float) :
  Forall (fun v => v = 0 \/ v = 1) l -> sf_nonneg (Prim2SF (sum_f l)).
Proof.
  unfold sum_f.
  assert (G : forall acc, sf_nonneg (Prim2SF acc) ->
                Forall (fun v => v = 0 \/ v = 1) l ->
                sf_nonneg (Prim2SF (fold_left PrimFloat.add l acc))).
  { induction l as [|v l IH]; intros acc Hacc Hl; simpl; [exact Hacc|].
    inversion Hl as [|? ? Hv Hl']; subst. apply IH; [|exact Hl'].
    apply add_nonneg; [exact Hacc|].
    destruct Hv as [-> | ->]; exact I. }
  apply G. exact I.
Qed.

(** The divisor of [loss] for a sample of a 0/1 mask is positive. *)
Lemma divisor_pos (n : float) :
  sf_nonneg (Prim2SF n) -> sf_pos (Prim2SF (clamp_min 2 n + 1e-8)).
Proof.
  intros Hn.
  assert (Hc : sf_pos (Prim2SF (clamp_min 2 n))).
  { unfold clamp_min. destruct (PrimFloat.ltb n 2) eqn:E; [exact I|].
    rewrite FloatAxioms.ltb_spec in E.
    destruct (Prim2SF n) as [s|s| |s m e]; try destruct s; simpl in *;
      try contradiction; try exact I.
    unfold SFltb in E. simpl in E. discriminate. }
  apply add_nonneg; [| exact I | left; exact Hc].
  destruct (Prim2SF (clamp_min 2 n)) as [s|s| |s m e]; try destruct s;
    simpl in *; tauto.
Qed.

Lemma zero_div_sf_pos (y : float) : sf_pos (Prim2SF y) -> 0 / y = 0.
Proof.
  intros Hy. apply zero_div_pos.
  destruct (Prim2SF y) as [s|s| |s m e]; try destruct s; simpl in Hy;
    try contradiction; eauto.
Qed.

(** A finite value minus itself is the positive zero. *)
Lemma sub_self_zero (a : float) : is_finite a = true -> a - a = 0.
Proof.
  intros Hf. apply Prim2SF_inj. rewrite FloatAxioms.sub_spec.
  unfold SF64sub.
  destruct (is_finite_SF a Hf) as [[s ->]|(s & m & e & ->)].
  - destruct s; reflexivity.
  - simpl. rewrite Z.min_id. unfold shl_align. rewrite Z.sub_diag. simpl.
    reflexivity.
Qed.
End FloatSums.

Section LossMore.
Local Open Scope float_scope.

Lemma zip_exact_swap {A B C : Type} (f : A -> B -> result C)
    (g : B -> A -> result C) (a : list A) (b : list B) :
  (forall u v, f u v = g v u) -> zip_exact f a b = zip_exact g b a.
Proof.
  intros Hfg. revert b. induction a as [|u a IH]; intros [|v b]; simpl;
    try reflexivity.
  rewrite Hfg, IH. reflexivity.
Qed.

Lemma zip_exact_self {A M D Z : Type}
    (f : A -> A -> result D) (g : D -> M -> result Z)
    (Q : A -> M -> Prop) (h : A -> Z) :
  (forall u m, Q u m -> exists d, f u u = Ok d /\ g d m = Ok (h u)) ->
  forall a ms, Forall2 Q a ms ->
    exists d, zip_exact f a a = Ok d /\ zip_exact g d ms = Ok (map h a).
Proof.
  intros Hfg a ms Hq.
  induction Hq as [|u m a ms Hum _ (ds & Hds & Hgs)]; simpl.
  - exists []. split; reflexivity.
  - destruct (Hfg u m Hum) as (d & Hd & Hg).
    exists (d :: ds). rewrite Hd, Hds; simpl. split; [reflexivity|].
    rewrite Hg, Hgs. reflexivity.
Qed.

Lemma zip_exact_maps {A B D M Z : Type} (g : D -> M -> result Z)
    (j : A -> D) (k : B -> M) (h : A -> Z) (a : list A) (b : list B) :
  Forall2 (fun u v => g (j u) (k v) = Ok (h u)) a b ->
  zip_exact g (map j a) (map k b) = Ok (map h a).
Proof.
  induction 1 as [|u v a b Huv _ IH]; simpl; [reflexivity|].
  rewrite Huv, IH. reflexivity.
Qed.

Lemma Forall2_right {A B : Type} (Q : B -> Prop) (a : list A) (b : list B) :
  Forall2 (fun _ v => Q v) a b -> Forall Q b.
Proof. induction 1; constructor; auto. Qed.

Lemma mask_sample_sum (u : list (list (list float))) (m : list (list (list float))) :
  Forall2 (Forall2 (Forall2 (fun a v => is_finite a = true /\ (v = 0 \/ v = 1)))) u m ->
  sf_nonneg (Prim2SF (sum_dims321 m)).
Proof.
  intros Hum. unfold sum_dims321. apply sum_f_nonneg.
  apply Forall_concat, Forall_concat.
  apply (Forall2_right _ u). eapply Forall2_impl; [|exact Hum].
  intros r1 r2 Hr. apply (Forall2_right _ r1). eapply Forall2_impl; [|exact Hr].
  intros c1 c2 Hc. apply (Forall2_right _ c1). eapply Forall2_impl; [|exact Hc].
  intros a v [_ Hv]. exact Hv.
Qed.

Lemma perfect_masked_zero (left_score im1visible_mask : tensor4f) :
  Forall2_4 (fun a m => is_finite a = true /\ (m = 0 \/ m = 1))
    left_score im1visible_mask ->
  exists d,
    zip4d (fun a b => (a - b) * (a - b)) left_score left_score = Ok d
    /\ zip4d PrimFloat.mul d im1visible_mask = Ok (zeros_like left_score).
Proof.
  unfold Forall2_4, zip4d, zeros_like, map4.
  apply zip_exact_self. intros s1 s2.
  apply zip_exact_self. intros r1 r2.
  apply zip_exact_self. intros c1 c2.
  apply zip_exact_self. intros a m [Ha Hm].
  eexists. split; [reflexivity|]. f_equal.
  rewrite (sub_self_zero a Ha). destruct Hm as [-> | ->]; reflexivity.
Qed.
End LossMore.

(** X14: [loss] is symmetric in the predicted and the ground-truth score
    maps, for every input, errors included. *)
Theorem loss_symmetric (left_score im1gt_score im1visible_mask : tensor4f) :
  RFDet.loss left_score im1gt_score im1visible_mask
  = RFDet.loss im1gt_score left_score im1visible_mask.
Proof.
  unfold RFDet.loss, zip4d.
  rewrite (zip_exact_swap _
             (zip_exact (zip_exact (zip_exact
                (fun a b => Ok ((a - b) * (a - b))%float))))
             left_score im1gt_score); [reflexivity|].
  intros s1 s2. apply zip_exact_swap.
  intros r1 r2. apply zip_exact_swap.
  intros c1 c2. apply zip_exact_swap.
  intros a b. f_equal. apply sq_diff_sym.
Qed.

(** X15: a perfect prediction has zero loss: for a batch of at least one
    (and fewer than 2^63) score maps with finite values and a visibility
    mask of the same shape with values 0.0 and 1.0, [loss] of the score
    maps against themselves is 0.0. *)
Theorem loss_perfect_prediction (left_score im1visible_mask : tensor4f) :
  (0 < Z.of_nat (length left_score) < 2 ^ 63)%Z ->
  Forall2_4 (fun a m => is_finite a = true /\ (m = 0 \/ m = 1)%float)
    left_score im1visible_mask ->
  RFDet.loss left_score left_score im1visible_mask = Ok 0%float.
Proof.
  intros HB Hq. unfold RFDet.loss.
  destruct (perfect_masked_zero left_score im1visible_mask Hq) as (d & -> & Hm).
  cbn [bind]. rewrite Hm. cbn [bind].
  unfold zeros_like, map4.
  rewrite (zip_exact_maps _ _ _ (fun _ => 0%float)).
  - cbn [bind]. unfold mean_f. rewrite sum_f_zeros.
    + rewrite !length_map. f_equal.
      apply zero_div_pos, float_of_nat_pos, HB.
    + apply Forall_map, Forall_forall. intros; reflexivity.
  - eapply Forall2_impl; [|exact Hq]. intros u m Hum. f_equal.
    fold (@map3 float float (fun _ => 0%float) u).
    rewrite sum_dims321_zeros.
    apply zero_div_sf_pos, divisor_pos, (mask_sample_sum u m Hum).
Qed.

Lemma loss_perfect_prediction_witness :
  RFDet.loss [[[[0.5; 0.25]]]; [[[1; 0]]]]%float [[[[0.5; 0.25]]]; [[[1; 0]]]]%float
    [[[[1; 0]]]; [[[1; 1]]]]%float = Ok 0%float.
Proof.
  apply (loss_perfect_prediction
           [[[[0.5; 0.25]]]; [[[1; 0]]]]%float [[[[1; 0]]]; [[[1; 1]]]]%float).
  - simpl. lia.
  - repeat first
      [ apply Forall2_cons
      | apply Forall2_nil
      | split; [reflexivity | first [left; reflexivity | right; reflexivity]] ].
Defined.

(** ** [RFDet.convO_init] *)

(** X16: [convO_init] is idempotent; on a [Conv2d] it leaves every
    hyperparameter and the sizes of the weight and bias tensors as they
    are, makes every weight 0 and every bias value 1, and keeps a missing
    bias missing; every other module is returned unchanged. *)
Theorem convO_init_effect (m : layer params) :
  convO_init (convO_init m) = convO_init m
  /\ (forall i o k s p d g b w, m = Conv2d i o k s p d g b w ->
        exists w', convO_init m = Conv2d i o k s p d g b w'
                   /\ length (weight w') = length (weight w)
                   /\ Forall (fun v => v = 0%float) (weight w')
                   /\ match bias w, bias w' with
                      | None, None => True
                      | Some bv, Some bv' =>
                          length bv' = length bv
                          /\ Forall (fun v => v = 1%float) bv'
                      | _, _ => False
                      end)
  /\ ((forall i o k s p d g b w, m <> Conv2d i o k s p d g b w) ->
      convO_init m = m).
Proof.
  split; [|split].
  - destruct m as [i o k s p d g b w| | |]; simpl; try reflexivity.
    f_equal. f_equal.
    + rewrite map_map. reflexivity.
    + destruct (bias w); simpl; [rewrite map_map|]; reflexivity.
  - intros i o k s p d g b w ->. simpl. eexists. split; [reflexivity|].
    simpl. split; [apply length_map|]. split.
    + apply Forall_map, Forall_forall. intros; reflexivity.
    + destruct (bias w) as [bv|]; simpl; [|exact I].
      split; [apply length_map|].
      apply Forall_map, Forall_forall. intros; reflexivity.
  - intros Hm. destruct m as [i o k s p d g b w| | |]; try reflexivity.
    exfalso. apply (Hm i o k s p d g b w). reflexivity.
Qed.
